(** * M-SIDH (masked SIDH) key exchange: a shallow embedding of [msidh.py]

    The Python module drives Sage: curves, points, isogenies, the Weil
    pairing, primality and modular square roots all come from the
    computer-algebra system.  Those primitives are gathered in the class
    [Backend]; the functions of [msidh.py] are written over it, line by
    line.  Python exceptions are values of [exn], a computation that may
    raise is a [result], and a computation that draws random numbers is a
    finite uniform distribution [Dist].  Console output ([print]) is
    left out of these, and followed separately for [mewtwo] and
    [generate_private_key] (the [_io] versions, over [DistIO]). *)

From Stdlib Require Import ZArith List String Bool Lia Znumtheory Setoid Morphisms FinFun.
From Stdlib Require Import SpecFloat DecimalString.
Import ListNotations.
Open Scope Z_scope.

(** ** Exceptions and the two monads *)

(** [Exception] and [AssertionError] carry the message the source gives
    them.  [ValueError], [IndexError] and [RecursionError] are raised by
    the Python runtime; [BackendError] stands for whatever Sage raises
    inside a primitive (the string names the primitive's complaint). *)
Inductive exn : Type :=
| Exception (msg : string)
| AssertionError (msg : string)
| ValueError
| IndexError
| RecursionError
| BackendError (what : string).

Inductive result (T : Type) : Type :=
| Ok (v : T)
| Raise (e : exn).
Arguments Ok {T} v.
Arguments Raise {T} e.

Definition bind {T U : Type} (c : result T) (k : T -> result U) : result U :=
  match c with
  | Ok v => k v
  | Raise e => Raise e
  end.

Declare Scope py_scope.
Delimit Scope py_scope with py.
Notation "x <- c ;; k" := (bind c (fun x => k))
  (at level 61, c at next level, right associativity) : py_scope.
Notation "' pat <- c ;; k" := (bind c (fun x => match x with pat => k end))
  (at level 61, pat pattern, c at next level, right associativity) : py_scope.
Open Scope py_scope.

(** [assert cond, msg] *)
Definition assert_ (cond : bool) (msg : string) : result unit :=
  if cond then Ok tt else Raise (AssertionError msg).

(** A finite distribution: every entry of the list is one equally likely
    run of the program, ending in a value or in an exception. *)
Definition Dist (T : Type) : Type := list (result T).

Definition dret {T : Type} (v : T) : Dist T := [Ok v].

Definition dlift {T : Type} (c : result T) : Dist T := [c].

Definition dbind {T U : Type} (d : Dist T) (k : T -> Dist U) : Dist U :=
  flat_map (fun r => match r with
                     | Ok v => k v
                     | Raise e => [Raise e]
                     end) d.

Notation "x <~ d ;; k" := (dbind d (fun x => k))
  (at level 61, d at next level, right associativity) : py_scope.

(** [range(n)] as a list of integers. *)
Definition range (n : Z) : list Z := map Z.of_nat (seq 0 (Z.to_nat n)).

(** [randrange(n)]: uniform on [0, n); Python raises [ValueError] on an
    empty range. *)
Definition randrange (n : Z) : Dist Z :=
  if n <=? 0 then [Raise ValueError] else map Ok (range n).

(** [l[i]] for a non-negative index. *)
Definition index {T : Type} (l : list T) (i : Z) : result T :=
  match nth_error l (Z.to_nat i) with
  | Some v => Ok v
  | None => Raise IndexError
  end.

(** A run together with the lines it has printed. *)
Definition DistIO (T : Type) : Type := list (result T * list string).

Definition ioret {T : Type} (v : T) : DistIO T := [(Ok v, [])].

(** A computation that prints nothing. *)
Definition iolift {T : Type} (d : Dist T) : DistIO T :=
  map (fun r => (r, [])) d.

(** [print(line)] *)
Definition print (line : string) : DistIO unit := [(Ok tt, [line])].

Definition iobind {T U : Type} (d : DistIO T) (k : T -> DistIO U)
  : DistIO U :=
  flat_map (fun ro => match fst ro with
                      | Ok v => map (fun ro' => (fst ro', snd ro ++ snd ro'))
                                    (k v)
                      | Raise e => [(Raise e, snd ro)]
                      end) d.

Notation "x <<~ d ;; k" := (iobind d (fun x => k))
  (at level 61, d at next level, right associativity) : py_scope.

(** [str(z)] of an integer, as an f-string formats it. *)
Definition str (z : Z) : string := NilZero.string_of_int (Z.to_int z).

(** ** The computer-algebra backend *)

(** The [algorithm=] keyword of [EllipticCurve.isogeny]. *)
Inductive algorithm : Type := Traditional | Factored.

Class Backend : Type := {
  Curve : Type;
  Point : Type;
  Fld : Type;
  Isogeny : Type;
  Float : Type;
  Field : Type;
  (* number theory *)
  is_prime : Z -> bool;
  (* IntegerMod(IntegerModRing(b), 1).sqrt(all=True), each root given by
     its representative in [0, b) *)
  sqrt_all : Z -> result (list Z);
  (* math.sqrt on an integer, float arithmetic and mixed comparisons *)
  math_sqrt : Z -> result Float;
  float_mul : Float -> Float -> Float;
  float_10e_4 : Float;
  float_10e4 : Float;
  float_le_int : Float -> Z -> bool;
  int_le_float : Z -> Float -> bool;
  (* fields and curves *)
  FiniteField : Z -> Z -> result Field;
  EllipticCurve : Field -> list Z -> result Curve;
  is_supersingular : Curve -> bool;
  gens : Curve -> list Point;
  is_on_curve : Curve -> Fld -> Fld -> bool;
  infinity : Curve -> Point;
  j_invariant : Curve -> Fld;
  (* points *)
  curve_of : Point -> Curve;
  padd : Point -> Point -> Point;
  smul : Z -> Point -> Point;
  point_eqb : Point -> Point -> bool;
  xy : Point -> result (Fld * Fld);
  point_order : Point -> Z;
  weil_pairing : Point -> Point -> Z -> result Fld;
  fpow : Fld -> Z -> Fld;
  fld_eqb : Fld -> Fld -> bool;
  (* isogenies *)
  isogeny : Curve -> Point -> algorithm -> result Isogeny;
  codomain : Isogeny -> Curve;
  isog_eval : Isogeny -> Point -> Point
}.

(** ** [Primes().unrank(i)]: the i-th prime, counted from 0 *)

Definition divides_b (d n : Z) : bool := n mod d =? 0.

Definition trial_prime (n : Z) : bool :=
  (1 <? n) && forallb (fun d => negb (divides_b d n))
                      (map (fun k => Z.of_nat k + 2) (seq 0 (Z.to_nat (n - 2)))).

Fixpoint primes_from (fuel : nat) (n : Z) : list Z :=
  match fuel with
  | O => []
  | S fuel' =>
      if trial_prime n then n :: primes_from fuel' (n + 1)
      else primes_from fuel' (n + 1)
  end.

Definition Primes_unrank (i : nat) : Z :=
  nth i (primes_from ((i + 2) * (i + 2)) 2) 0.

(** [prod(l)] *)
Definition prod (l : list Z) : Z := fold_left Z.mul l 1.

(** [l[::2]] and [l[1::2]] *)
Fixpoint slice_even {T : Type} (l : list T) : list T :=
  match l with
  | [] => []
  | x :: l' => x :: match l' with
                    | [] => []
                    | _ :: l'' => slice_even l''
                    end
  end.

Definition slice_odd {T : Type} (l : list T) : list T :=
  match l with
  | [] => []
  | _ :: l' => slice_even l'
  end.

Section Source.
Context {BK : Backend}.

(** ** [class MSIDH_Parameters] *)

Record MSIDH_Parameters : Type := {
  lamb : Z;
  f : Z;
  p : Z;
  E0 : Curve;
  A : Z;
  B : Z;
  PA : Point;
  QA : Point;
  PB : Point;
  QB : Point
}.

(** [x, y = P.xy(); curve.is_on_curve(x, y)] *)
Definition on_curve_check (curve : Curve) (P : Point) : result bool :=
  '(x, y) <- xy P ;;
  Ok (is_on_curve curve x y).

(** [verify_parameters]: the checks in source order, each one returning
    [False] at once when it fails. *)
Definition verify_parameters (self : MSIDH_Parameters) : result bool :=
  let p := p self in
  let A := A self in
  let B := B self in
  let f := f self in
  let curve := E0 self in
  let supersingular := is_supersingular curve in
  if negb supersingular then Ok false else
  let prime := is_prime p in
  if negb prime then Ok false else
  let valid := p =? A * B * f - 1 in
  if negb valid then Ok false else
  s <- math_sqrt p ;;
  let valid :=
    (float_le_int (float_mul s float_10e_4) A
     && int_le_float A (float_mul s float_10e4))
    && (float_le_int (float_mul s float_10e_4) B
        && int_le_float B (float_mul s float_10e4)) in
  if negb valid then Ok false else
  let valid := Z.gcd A B =? 1 in
  if negb valid then Ok false else
  let PA := PA self in
  let QA := QA self in
  let PB := PB self in
  let QB := QB self in
  pa_on_curve <- on_curve_check curve PA ;;
  qa_on_curve <- on_curve_check curve QA ;;
  pb_on_curve <- on_curve_check curve PB ;;
  qb_on_curve <- on_curve_check curve QB ;;
  if negb (pa_on_curve && qa_on_curve && pb_on_curve && qb_on_curve)
  then Ok false else
  let valid :=
    (point_order PA =? A) && (point_order QA =? A)
    && (point_order PB =? B) && (point_order QB =? B) in
  if negb valid then Ok false else
  let distinctA := negb (point_eqb PA QA) in
  let distinctB := negb (point_eqb PB QB) in
  if negb (distinctA && distinctB) then Ok false else
  let trivial_A :=
    point_eqb PA (infinity curve) || point_eqb QA (infinity curve) in
  let trivial_B :=
    point_eqb PB (infinity curve) || point_eqb QB (infinity curve) in
  if trivial_A || trivial_B then Ok false else
  Ok true.

(** [a, b = (... for G in gens)]: unpacking into exactly two names. *)
Definition unpack2 {T : Type} (l : list T) : result (T * T) :=
  match l with
  | [a; b] => Ok (a, b)
  | _ => Raise ValueError
  end.

(** [MSIDH_Parameters.__init__]; [B * G * f] is [(B * G) * f]. *)
Definition MSIDH_Parameters_init (lamb f p : Z) (E0 : Curve) (A B : Z)
  : result MSIDH_Parameters :=
  '(PA, QA) <- unpack2 (map (fun G => smul f (smul B G)) (gens E0)) ;;
  '(PB, QB) <- unpack2 (map (fun G => smul f (smul A G)) (gens E0)) ;;
  let self := {| lamb := lamb; f := f; p := p; E0 := E0; A := A; B := B;
                 PA := PA; QA := QA; PB := PB; QB := QB |} in
  ok <- verify_parameters self ;;
  if negb ok then Raise (Exception "Invalid parameters") else Ok self.

(** The object [__init__] has filled in when it calls
    [verify_parameters], for a curve whose generators are [G1] and [G2]. *)
Definition assembled (lamb f p : Z) (E0 : Curve) (A B : Z) (G1 G2 : Point)
  : MSIDH_Parameters :=
  {| lamb := lamb; f := f; p := p; E0 := E0; A := A; B := B;
     PA := smul f (smul B G1); QA := smul f (smul B G2);
     PB := smul f (smul A G1); QB := smul f (smul A G2) |}.

(** The parameter set seen from the other role. *)
Definition swap_roles (pr : MSIDH_Parameters) : MSIDH_Parameters :=
  {| lamb := lamb pr; f := f pr; p := p pr; E0 := E0 pr;
     A := B pr; B := A pr;
     PA := PB pr; QA := QB pr; PB := PA pr; QB := QA pr |}.

(** The nine invariants of a parameter set, as the checks of
    [verify_parameters] evaluate them. *)
Definition band_holds (pr : MSIDH_Parameters) : Prop :=
  exists s, math_sqrt (p pr) = Ok s
    /\ float_le_int (float_mul s float_10e_4) (A pr) = true
    /\ int_le_float (A pr) (float_mul s float_10e4) = true
    /\ float_le_int (float_mul s float_10e_4) (B pr) = true
    /\ int_le_float (B pr) (float_mul s float_10e4) = true.

Record nine_invariants (pr : MSIDH_Parameters) : Prop := {
  inv_supersingular : is_supersingular (E0 pr) = true;
  inv_prime : is_prime (p pr) = true;
  inv_p_eq : p pr = A pr * B pr * f pr - 1;
  inv_band : band_holds pr;
  inv_coprime : Z.gcd (A pr) (B pr) = 1;
  inv_on_curve :
    on_curve_check (E0 pr) (PA pr) = Ok true
    /\ on_curve_check (E0 pr) (QA pr) = Ok true
    /\ on_curve_check (E0 pr) (PB pr) = Ok true
    /\ on_curve_check (E0 pr) (QB pr) = Ok true;
  inv_orders :
    point_order (PA pr) = A pr /\ point_order (QA pr) = A pr
    /\ point_order (PB pr) = B pr /\ point_order (QB pr) = B pr;
  inv_distinct :
    point_eqb (PA pr) (QA pr) = false /\ point_eqb (PB pr) (QB pr) = false;
  inv_nontrivial :
    point_eqb (PA pr) (infinity (E0 pr)) = false
    /\ point_eqb (QA pr) (infinity (E0 pr)) = false
    /\ point_eqb (PB pr) (infinity (E0 pr)) = false
    /\ point_eqb (QB pr) (infinity (E0 pr)) = false
}.

(** The reasons the first eight checks can give for the answer
    [False]. *)
Definition refused_by_first_eight (pr : MSIDH_Parameters) : Prop :=
  is_supersingular (E0 pr) = false
  \/ is_prime (p pr) = false
  \/ p pr <> A pr * B pr * f pr - 1
  \/ ~ band_holds pr
  \/ Z.gcd (A pr) (B pr) <> 1
  \/ (on_curve_check (E0 pr) (PA pr) = Ok false
      \/ on_curve_check (E0 pr) (QA pr) = Ok false
      \/ on_curve_check (E0 pr) (PB pr) = Ok false
      \/ on_curve_check (E0 pr) (QB pr) = Ok false)
  \/ ~ (point_order (PA pr) = A pr /\ point_order (QA pr) = A pr
        /\ point_order (PB pr) = B pr /\ point_order (QB pr) = B pr)
  \/ (point_eqb (PA pr) (QA pr) = true \/ point_eqb (PB pr) (QB pr) = true).

(** What it would mean for the exception of [__init__] to say which
    invariants failed: some reading [failed] of the exception that
    contains 2 exactly when the prime test fails and 5 exactly when the
    degrees are not coprime. *)
Definition error_lists_failures (failed : exn -> list nat) : Prop :=
  forall lamb f p E0 A B e,
    MSIDH_Parameters_init lamb f p E0 A B = Raise e ->
    (In 2%nat (failed e) <-> is_prime p = false)
    /\ (In 5%nat (failed e) <-> Z.gcd A B <> 1).

(** ** [class MSIDHpBaby]

    The list of the first [t] primes, the first [lamb] of them cubed. *)
Definition primes_list (t lamb : nat) : list Z :=
  map (fun i => if (i <? lamb)%nat then Primes_unrank i ^ 3
                else Primes_unrank i)
      (seq 0 t).

Definition baby_A : Z := prod (slice_even (primes_list 20 10)).
Definition baby_B : Z := prod (slice_odd (primes_list 20 10)).

(** [MSIDHpBaby.__init__(f)].  [depth] is the number of nested calls the
    interpreter still allows.  The recursive call initialises the same
    object; when it returns, the body goes on with this call's own [f]
    and [p], and [super().__init__] assigns every attribute again. *)
Fixpoint MSIDHpBaby_init (depth : nat) (f : Z) : result MSIDH_Parameters :=
  match depth with
  | O => Raise RecursionError
  | S depth' =>
      let lamb := 10 in
      let A := baby_A in
      let B := baby_B in
      let p := A * B * f - 1 in
      _ <- (if negb (is_prime p)
            then (_ <- MSIDHpBaby_init depth' (f + 1) ;; Ok tt)
            else Ok tt) ;;
      F <- FiniteField p 2 ;;
      E0 <- EllipticCurve F [1; 0] ;;
      _ <- assert_ (is_supersingular E0) "" ;;
      MSIDH_Parameters_init lamb f p E0 A B
  end.

(** ** [mewtwo] *)

Definition mewtwo (b : Z) : Dist Z :=
  sqs <~ dlift (sqrt_all b) ;;
  let l := Z.of_nat (List.length sqs) in
  rand <~ randrange l ;;
  res <~ dlift (index sqs rand) ;;
  _ <~ dlift (assert_ ((res * res) mod b =? 1 mod b) "") ;;
  dret res.

(** [mewtwo] with its [print(f"mewtwo: {res}")]. *)
Definition mewtwo_io (b : Z) : DistIO Z :=
  sqs <<~ iolift (dlift (sqrt_all b)) ;;
  let l := Z.of_nat (List.length sqs) in
  rand <<~ iolift (randrange l) ;;
  res <<~ iolift (dlift (index sqs rand)) ;;
  _ <<~ iolift (dlift (assert_ ((res * res) mod b =? 1 mod b) "")) ;;
  _ <<~ print ("mewtwo: " ++ str res) ;;
  ioret res.

Definition private_key : Type := (Z * Z)%type.
Definition public_key : Type := (Curve * Point * Point)%type.

End Source.

(** ** [class MSIDH_Party_A] *)
Module MSIDH_Party_A.
Section Party.
Context {BK : Backend}.

Definition get_public_parameters (parameters : MSIDH_Parameters)
  : MSIDH_Parameters := parameters.

Definition generate_private_key (parameters : MSIDH_Parameters)
  : Dist private_key :=
  alpha <~ mewtwo (B parameters) ;;
  a <~ randrange (A parameters) ;;
  dret (alpha, a).

(** The same with what the call prints. *)
Definition generate_private_key_io (parameters : MSIDH_Parameters)
  : DistIO private_key :=
  alpha <<~ mewtwo_io (B parameters) ;;
  a <<~ iolift (randrange (A parameters)) ;;
  ioret (alpha, a).

Definition compute_public_key (pr : MSIDH_Parameters) (private_key : private_key)
  : result public_key :=
  let KA := padd (PA pr) (smul (snd private_key) (QA pr)) in
  phiA <- isogeny (E0 pr) KA Factored ;;
  Ok (codomain phiA,
      smul (fst private_key) (isog_eval phiA (PB pr)),
      smul (fst private_key) (isog_eval phiA (QB pr))).

(** The two values [p1] and [p2] that [compute_shared_secret] computes
    and compares (source lines 283 to 286). *)
Definition pairing_values (pr : MSIDH_Parameters)
  (other_public_key : public_key) : result (Fld * Fld) :=
  let '(_, Ra, Sa) := other_public_key in
  p1 <- weil_pairing Ra Sa (A pr) ;;
  e <- weil_pairing (PA pr) (QA pr) (A pr) ;;
  let p2 := fpow e (B pr) in
  Ok (p1, p2).

Definition compute_shared_secret (pr : MSIDH_Parameters)
  (private_key : private_key) (other_public_key : public_key) : result Fld :=
  '(p1, p2) <- pairing_values pr other_public_key ;;
  _ <- assert_ (fld_eqb p1 p2) "Weil pairing values do not match" ;;
  let '(Eo, Ra, Sa) := other_public_key in
  let LA := padd Ra (smul (snd private_key) Sa) in
  psiA <- isogeny Eo LA Factored ;;
  Ok (j_invariant (codomain psiA)).

(** The check as the specification words it for role A: pairing of
    degree [B] (the peer's), against the peer's basis [(PB, QB)], raised
    to the own degree [A]. *)
Definition spec_pairing_values (pr : MSIDH_Parameters)
  (other_public_key : public_key) : result (Fld * Fld) :=
  let '(_, Rp, Sp) := other_public_key in
  p1 <- weil_pairing Rp Sp (B pr) ;;
  e <- weil_pairing (PB pr) (QB pr) (B pr) ;;
  Ok (p1, fpow e (A pr)).

End Party.
End MSIDH_Party_A.

(** ** [class MSIDH_Party_B] *)
Module MSIDH_Party_B.
Section Party.
Context {BK : Backend}.

Definition get_public_parameters (parameters : MSIDH_Parameters)
  : MSIDH_Parameters := parameters.

Definition generate_private_key (parameters : MSIDH_Parameters)
  : Dist private_key :=
  beta <~ mewtwo (A parameters) ;;
  b <~ randrange (B parameters) ;;
  dret (beta, b).

(** The same with what the call prints. *)
Definition generate_private_key_io (parameters : MSIDH_Parameters)
  : DistIO private_key :=
  beta <<~ mewtwo_io (A parameters) ;;
  b <<~ iolift (randrange (B parameters)) ;;
  ioret (beta, b).

Definition compute_public_key (pr : MSIDH_Parameters) (private_key : private_key)
  : result public_key :=
  let KB := padd (PB pr) (smul (snd private_key) (QB pr)) in
  phiB <- isogeny (E0 pr) KB Factored ;;
  Ok (codomain phiB,
      smul (fst private_key) (isog_eval phiB (PA pr)),
      smul (fst private_key) (isog_eval phiB (QA pr))).

(** The two values [p1] and [p2] that [compute_shared_secret] computes
    and compares (source lines 322 to 325). *)
Definition pairing_values (pr : MSIDH_Parameters)
  (other_public_key : public_key) : result (Fld * Fld) :=
  let '(_, Rb, Sb) := other_public_key in
  p1 <- weil_pairing Rb Sb (B pr) ;;
  e <- weil_pairing (PB pr) (QB pr) (B pr) ;;
  let p2 := fpow e (A pr) in
  Ok (p1, p2).

Definition compute_shared_secret (pr : MSIDH_Parameters)
  (private_key : private_key) (other_public_key : public_key) : result Fld :=
  '(p1, p2) <- pairing_values pr other_public_key ;;
  _ <- assert_ (fld_eqb p1 p2) "Weil pairing values do not match" ;;
  let '(Eo, Rb, Sb) := other_public_key in
  let LB := padd Rb (smul (snd private_key) Sb) in
  psiB <- isogeny Eo LB Factored ;;
  Ok (j_invariant (codomain psiB)).

(** The check as the specification words it for role B: pairing of
    degree [A], against the basis [(PA, QA)], raised to the degree [B]. *)
Definition spec_pairing_values (pr : MSIDH_Parameters)
  (other_public_key : public_key) : result (Fld * Fld) :=
  let '(_, Rp, Sp) := other_public_key in
  p1 <- weil_pairing Rp Sp (A pr) ;;
  e <- weil_pairing (PA pr) (QA pr) (A pr) ;;
  Ok (p1, fpow e (B pr)).

End Party.
End MSIDH_Party_B.

(** ** What the backend promises

    The contracts of the Sage primitives the proofs rely on, as
    propositions over a [Backend]. *)
Section Contracts.
Context {BK : Backend}.

(** Points of a curve form a module over the integers; [order()] is the
    exact order; [gens()] yields independent generators. *)
Record ModuleLaws : Prop := {
  curve_of_padd : forall P Q, curve_of (padd P Q) = curve_of P;
  curve_of_smul : forall k P, curve_of (smul k P) = curve_of P;
  curve_of_infinity : forall E, curve_of (infinity E) = E;
  padd_inf_inf : forall E, padd (infinity E) (infinity E) = infinity E;
  smul_inf : forall k E, smul k (infinity E) = infinity E;
  smul_add_r : forall k P Q,
    curve_of P = curve_of Q ->
    smul k (padd P Q) = padd (smul k P) (smul k Q);
  smul_add_l : forall a b P, smul (a + b) P = padd (smul a P) (smul b P);
  smul_smul : forall a b P, smul a (smul b P) = smul (a * b) P;
  point_order_pos : forall P, 0 < point_order P;
  point_order_spec : forall k P,
    smul k P = infinity (curve_of P) <-> (point_order P | k);
  gens_curve : forall E G, In G (gens E) -> curve_of G = E;
  gens_independent : forall E G1 G2 x y,
    gens E = [G1; G2] ->
    padd (smul x G1) (smul y G2) = infinity E ->
    smul x G1 = infinity E /\ smul y G2 = infinity E
}.

(** The Weil pairing is defined on n-torsion points of one curve, it is
    bilinear and alternating (so scaling both arguments by [k] raises
    the value to [k * k]), an isogeny with kernel generated by [K]
    raises it to the order of [K], and its values are n-th roots of
    unity. *)
Record PairingLaws : Prop := {
  weil_defined : forall P Q n,
    curve_of P = curve_of Q ->
    smul n P = infinity (curve_of P) ->
    smul n Q = infinity (curve_of Q) ->
    exists v, weil_pairing P Q n = Ok v;
  weil_smul : forall P Q n k v,
    weil_pairing P Q n = Ok v ->
    weil_pairing (smul k P) (smul k Q) n = Ok (fpow v (k * k));
  weil_isogeny : forall E K alg phi P Q n v,
    isogeny E K alg = Ok phi ->
    curve_of P = E -> curve_of Q = E ->
    weil_pairing P Q n = Ok v ->
    weil_pairing (isog_eval phi P) (isog_eval phi Q) n
    = Ok (fpow v (point_order K));
  fpow_fpow : forall v a b, fpow (fpow v a) b = fpow v (a * b);
  fpow_mod : forall P Q n v a b,
    weil_pairing P Q n = Ok v ->
    a mod n = b mod n ->
    fpow v a = fpow v b;
  fld_eqb_eq : forall u v, fld_eqb u v = true <-> u = v
}.

(** An isogeny is defined for every kernel generator on the curve, it is
    a homomorphism into its codomain, two isogenies of coprime degree
    commute up to isomorphism of the final curve, and the curve reached
    depends only on the subgroup the kernel point generates. *)
Record IsogenyLaws : Prop := {
  isogeny_defined : forall E K alg,
    curve_of K = E -> exists phi, isogeny E K alg = Ok phi;
  curve_of_eval : forall E K alg phi P,
    isogeny E K alg = Ok phi -> curve_of P = E ->
    curve_of (isog_eval phi P) = codomain phi;
  eval_inf : forall E K alg phi,
    isogeny E K alg = Ok phi ->
    isog_eval phi (infinity E) = infinity (codomain phi);
  eval_add : forall E K alg phi P Q,
    isogeny E K alg = Ok phi -> curve_of P = E -> curve_of Q = E ->
    isog_eval phi (padd P Q) = padd (isog_eval phi P) (isog_eval phi Q);
  eval_smul : forall E K alg phi k P,
    isogeny E K alg = Ok phi -> curve_of P = E ->
    isog_eval phi (smul k P) = smul k (isog_eval phi P);
  isogeny_commute : forall E K1 K2 n1 n2 a1 a2 a3 a4 phi1 phi2 psi1 psi2,
    isogeny E K1 a1 = Ok phi1 ->
    isogeny E K2 a2 = Ok phi2 ->
    isogeny (codomain phi1) (isog_eval phi1 K2) a3 = Ok psi1 ->
    isogeny (codomain phi2) (isog_eval phi2 K1) a4 = Ok psi2 ->
    smul n1 K1 = infinity E -> smul n2 K2 = infinity E ->
    Z.gcd n1 n2 = 1 ->
    j_invariant (codomain psi1) = j_invariant (codomain psi2);
  isogeny_unit_multiple : forall E K m n a1 a2 phi phi',
    isogeny E K a1 = Ok phi ->
    isogeny E (smul m K) a2 = Ok phi' ->
    smul n K = infinity E ->
    (m * m) mod n = 1 mod n ->
    j_invariant (codomain phi) = j_invariant (codomain phi')
}.

(** What validation and the choice of generators give the protocol:
    the four basis points lie on the base curve with the orders [A] and
    [B], each pair is independent, and the degrees are coprime. *)
Definition independent (E : Curve) (P Q : Point) : Prop :=
  forall x y,
    padd (smul x P) (smul y Q) = infinity E ->
    smul x P = infinity E /\ smul y Q = infinity E.

Record WellFormed (pr : MSIDH_Parameters) : Prop := {
  wf_curve_PA : curve_of (PA pr) = E0 pr;
  wf_curve_QA : curve_of (QA pr) = E0 pr;
  wf_curve_PB : curve_of (PB pr) = E0 pr;
  wf_curve_QB : curve_of (QB pr) = E0 pr;
  wf_order_PA : point_order (PA pr) = A pr;
  wf_order_QA : point_order (QA pr) = A pr;
  wf_order_PB : point_order (PB pr) = B pr;
  wf_order_QB : point_order (QB pr) = B pr;
  wf_indep_A : independent (E0 pr) (PA pr) (QA pr);
  wf_indep_B : independent (E0 pr) (PB pr) (QB pr);
  wf_coprime : Z.gcd (A pr) (B pr) = 1
}.

(** [sqrt(all=True)] of 1 in Z/bZ lists every square root of 1 once. *)
Definition SqrtLaw : Prop :=
  forall b, 0 < b ->
    exists l, sqrt_all b = Ok l /\ NoDup l /\
              forall x, In x l <-> (0 <= x < b /\ (x * x) mod b = 1 mod b).

(** [is_prime] answers [True] on primes only. *)
Definition PrimeLaw : Prop := forall n, is_prime n = true -> prime n.

(** [xy()] raises on the neutral point of a curve (a division by the
    zero third coordinate). *)
Definition XyLaw : Prop :=
  forall E P, point_eqb P (infinity E) = true -> exists e, xy P = Raise e.

(** [weil_pairing] answers only for two n-torsion points of one curve. *)
Definition WeilDomainLaw : Prop :=
  forall P Q n v,
    weil_pairing P Q n = Ok v ->
    curve_of P = curve_of Q
    /\ smul n P = infinity (curve_of P)
    /\ smul n Q = infinity (curve_of Q).

End Contracts.

(** ** A small backend

    A model in which every primitive computes: the group of the curve
    [y^2 = x^3 + x] over the field with [9239^2] elements, which is the
    square of [Z/9240], with points given by two coordinates modulo
    9240.  A curve is named by the degree of the isogeny that leads to it
    from the base curve; an isogeny with kernel generator [K] acts as the
    matrix [diag(ord K, 1)]; the pairing is the determinant. *)
Module Toy.

Definition N : Z := 9240.

Record pt : Type := { pc : Z; px : Z; py : Z }.

Record isog : Type := { idom : Z; ideg : Z }.

Definition t_infinity (E : Z) : pt := {| pc := E; px := 0; py := 0 |}.

Definition t_padd (P Q : pt) : pt :=
  {| pc := pc P; px := (px P + px Q) mod N; py := (py P + py Q) mod N |}.

Definition t_smul (k : Z) (P : pt) : pt :=
  {| pc := pc P; px := (k * px P) mod N; py := (k * py P) mod N |}.

Definition t_order (P : pt) : Z := N / Z.gcd (Z.gcd (px P) (py P)) N.

Definition t_is_zero (P : pt) : bool :=
  (px P mod N =? 0) && (py P mod N =? 0).

Definition t_point_eqb (P Q : pt) : bool :=
  (pc P =? pc Q) && (px P mod N =? px Q mod N) && (py P mod N =? py Q mod N).

Definition t_xy (P : pt) : result (Z * Z) :=
  if t_is_zero P then Raise (BackendError "ZeroDivisionError")
  else Ok (px P mod N, py P mod N).

Definition t_is_on_curve (E x y : Z) : bool :=
  (0 <=? x) && (x <? N) && (0 <=? y) && (y <? N).

Definition t_weil (P Q : pt) (n : Z) : result Z :=
  if negb (pc P =? pc Q)
  then Raise (BackendError "points must both be on the same curve")
  else if t_is_zero (t_smul n P) && t_is_zero (t_smul n Q)
       then Ok ((px P * py Q - px Q * py P) mod N)
       else Raise (BackendError "points must both be n-torsion").

Definition t_fpow (v e : Z) : Z := (v * e) mod N.

Definition t_isogeny (E : Z) (K : pt) (alg : algorithm) : result isog :=
  if pc K =? E then Ok {| idom := E; ideg := t_order K |}
  else Raise (BackendError "point is not on the curve").

Definition t_codomain (phi : isog) : Z := idom phi * ideg phi.

Definition t_eval (phi : isog) (P : pt) : pt :=
  {| pc := t_codomain phi; px := (ideg phi * px P) mod N; py := py P mod N |}.

Definition t_gens (E : Z) : list pt :=
  [ {| pc := E; px := 1; py := 0 |}; {| pc := E; px := 0; py := 1 |} ].

Definition t_sqrt_all (b : Z) : result (list Z) :=
  if b <=? 0 then Raise (BackendError "modulus must be positive")
  else Ok (filter (fun x => (x * x) mod b =? 1 mod b) (range b)).

(** Floats are replaced by exact fractions and the square root by the
    integer square root. *)
Definition t_math_sqrt (n : Z) : result (Z * Z) :=
  if n <? 0 then Raise ValueError else Ok (Z.sqrt n, 1).

Definition t_float_mul (a b : Z * Z) : Z * Z := (fst a * fst b, snd a * snd b).

Definition t_float_le_int (a : Z * Z) (z : Z) : bool := fst a <=? z * snd a.

Definition t_int_le_float (z : Z) (a : Z * Z) : bool := z * snd a <=? fst a.

Definition t_FiniteField (q n : Z) : result (Z * Z) :=
  if trial_prime q then Ok (q, n)
  else Raise (BackendError "the order of a finite field must be a prime power").

Definition t_EllipticCurve (F : Z * Z) (coeffs : list Z) : result Z :=
  if (fst F =? N - 1) && (snd F =? 2) then Ok 1
  else Raise (BackendError "field not supported").

#[export] Instance backend : Backend := {|
  Curve := Z;
  Point := pt;
  Fld := Z;
  Isogeny := isog;
  Float := (Z * Z)%type;
  Field := (Z * Z)%type;
  is_prime := trial_prime;
  sqrt_all := t_sqrt_all;
  math_sqrt := t_math_sqrt;
  float_mul := t_float_mul;
  float_10e_4 := (1, 1000);
  float_10e4 := (100000, 1);
  float_le_int := t_float_le_int;
  int_le_float := t_int_le_float;
  FiniteField := t_FiniteField;
  EllipticCurve := t_EllipticCurve;
  is_supersingular := fun _ => true;
  gens := t_gens;
  is_on_curve := t_is_on_curve;
  infinity := t_infinity;
  j_invariant := fun E => E;
  curve_of := pc;
  padd := t_padd;
  smul := t_smul;
  point_eqb := t_point_eqb;
  xy := t_xy;
  point_order := t_order;
  weil_pairing := t_weil;
  fpow := t_fpow;
  fld_eqb := Z.eqb;
  isogeny := t_isogeny;
  codomain := t_codomain;
  isog_eval := t_eval
|}.

(** The toy parameter set: A = 3 * 5, B = 7 * 11, f = 8, p = 9239. *)
Definition params : result MSIDH_Parameters :=
  MSIDH_Parameters_init 10 8 9239 1 15 77.

Definition pr : MSIDH_Parameters :=
  assembled 10 8 9239 1 15 77
    {| pc := 1; px := 1; py := 0 |} {| pc := 1; px := 0; py := 1 |}.

(** Private keys: 34 squares to 1 modulo 77 and 4 squares to 1 modulo 15. *)
Definition skA : private_key := (34, 7).
Definition skB : private_key := (4, 5).

(** Three parameter sets that validation does not accept: a composite
    modulus, degrees with a common factor, and a degree 1 (which makes
    [PA] and [QA] the neutral point). *)
Definition pr_composite : MSIDH_Parameters :=
  assembled 10 4 4619 1 15 77
    {| pc := 1; px := 1; py := 0 |} {| pc := 1; px := 0; py := 1 |}.

Definition pr_common_factor : MSIDH_Parameters :=
  assembled 10 14 9239 1 30 22
    {| pc := 1; px := 1; py := 0 |} {| pc := 1; px := 0; py := 1 |}.

Definition pr_degree_one : MSIDH_Parameters :=
  assembled 10 8 9239 1 1 1155
    {| pc := 1; px := 1; py := 0 |} {| pc := 1; px := 0; py := 1 |}.

(** A public key of party B whose second point has been doubled. *)
Definition tampered (pk : public_key) : public_key :=
  let '(E, Rp, Sp) := pk in (E, Rp, t_smul 2 Sp).

End Toy.

(** ** Two more backends

    [with_gens] replaces the generators a backend reports; [Cyclic] is
    the small backend with curves that report a single generator. *)
Definition with_gens (BK : Backend) (g : Curve -> list Point) : Backend := {|
  Curve := Curve;
  Point := Point;
  Fld := Fld;
  Isogeny := Isogeny;
  Float := Float;
  Field := Field;
  is_prime := is_prime;
  sqrt_all := sqrt_all;
  math_sqrt := math_sqrt;
  float_mul := float_mul;
  float_10e_4 := float_10e_4;
  float_10e4 := float_10e4;
  float_le_int := float_le_int;
  int_le_float := int_le_float;
  FiniteField := FiniteField;
  EllipticCurve := EllipticCurve;
  is_supersingular := is_supersingular;
  gens := g;
  is_on_curve := is_on_curve;
  infinity := infinity;
  j_invariant := j_invariant;
  curve_of := curve_of;
  padd := padd;
  smul := smul;
  point_eqb := point_eqb;
  xy := xy;
  point_order := point_order;
  weil_pairing := weil_pairing;
  fpow := fpow;
  fld_eqb := fld_eqb;
  isogeny := isogeny;
  codomain := codomain;
  isog_eval := isog_eval
|}.

Module Cyclic.

Definition backend : Backend :=
  with_gens Toy.backend
    (fun E => [ {| Toy.pc := E; Toy.px := 1; Toy.py := 0 |} ]).

End Cyclic.

(** [Accepting] is a backend for the numbers of [MSIDHpBaby] with the
    cofactor 6: points are integers under addition, the order of a
    point [P] is [A * B * 6 / |P|], and every test answers [True]. *)
Module Accepting.

Definition a_order (P : Z) : Z :=
  if P =? 0 then 1 else (baby_A * baby_B * 6) / Z.abs P.

Definition backend : Backend := {|
  Curve := unit;
  Point := Z;
  Fld := Z;
  Isogeny := unit;
  Float := unit;
  Field := unit;
  is_prime := fun _ => true;
  sqrt_all := fun _ => Ok [1];
  math_sqrt := fun _ => Ok tt;
  float_mul := fun _ _ => tt;
  float_10e_4 := tt;
  float_10e4 := tt;
  float_le_int := fun _ _ => true;
  int_le_float := fun _ _ => true;
  FiniteField := fun _ _ => Ok tt;
  EllipticCurve := fun _ _ => Ok tt;
  is_supersingular := fun _ => true;
  gens := fun _ => [1; -1];
  is_on_curve := fun _ _ _ => true;
  infinity := fun _ => 0;
  j_invariant := fun _ => 0;
  curve_of := fun _ => tt;
  padd := Z.add;
  smul := Z.mul;
  point_eqb := Z.eqb;
  xy := fun P => Ok (P, 0);
  point_order := a_order;
  weil_pairing := fun _ _ _ => Ok 1;
  fpow := fun v _ => v;
  fld_eqb := Z.eqb;
  isogeny := fun _ _ _ => Ok tt;
  codomain := fun _ => tt;
  isog_eval := fun _ P => P
|}.

End Accepting.

(** ** Double-precision floats

    [math.sqrt] converts its argument to a double.  A Sage [Integer], as
    the presets compute, is rounded to the nearest double and becomes
    infinity when it is too large; a Python [int] raises [OverflowError]
    in that case.  Doubles are the binary64 values of [SpecFloat]. *)
Module Doubles.

Definition double : Type := spec_float.

Definition plus_infinity : double := S754_infinity false.

(** Rounding to nearest, ties to even; infinity from
    [2^1024 - 2^970] on. *)
Definition double_of_Z (z : Z) : double := binary_normalize 53 1024 z 0 false.

(** The literals [10e-4] (the double nearest to 0.001) and [10e4]. *)
Definition lit_10e_4 : double := S754_finite false 4611686018427388 (-62).
Definition lit_10e4 : double := S754_finite false 6871947673600000 (-36).

Definition mul (x y : double) : double := SFmul 53 1024 x y.

(** The C function behind [math.sqrt]: a NaN result for an argument
    that is not NaN is a domain error. *)
Definition sqrt_double (x : double) : result double :=
  match SFsqrt 53 1024 x with
  | S754_nan => Raise ValueError
  | r => Ok r
  end.

(** [math.sqrt(p)] for a Sage [Integer]. *)
Definition sage_math_sqrt (z : Z) : result double := sqrt_double (double_of_Z z).

(** [math.sqrt(p)] for a Python [int]. *)
Definition python_math_sqrt (z : Z) : result double :=
  match double_of_Z z with
  | S754_infinity _ => Raise (BackendError "OverflowError")
  | d => sqrt_double d
  end.

(** Comparing a float with a Sage [Integer] converts the integer. *)
Definition sage_float_le_int (x : double) (z : Z) : bool :=
  SFleb x (double_of_Z z).

Definition sage_int_le_float (z : Z) (x : double) : bool :=
  SFleb (double_of_Z z) x.

(** Comparing a float with a Python [int] is exact. *)
Definition python_float_le_int (x : double) (z : Z) : bool :=
  match x with
  | S754_nan => false
  | S754_infinity s => s
  | S754_zero _ => 0 <=? z
  | S754_finite s m e =>
      let v := if s then Zneg m else Zpos m in
      if 0 <=? e then v * 2 ^ e <=? z else v <=? z * 2 ^ (- e)
  end.

Definition python_int_le_float (z : Z) (x : double) : bool :=
  match x with
  | S754_nan => false
  | S754_infinity s => negb s
  | S754_zero _ => z <=? 0
  | S754_finite s m e =>
      let v := if s then Zneg m else Zpos m in
      if 0 <=? e then z <=? v * 2 ^ e else z * 2 ^ (- e) <=? v
  end.

(** A backend with its float primitives replaced. *)
Definition with_floats (BK : Backend) (msqrt : Z -> result double)
  (fle : double -> Z -> bool) (ile : Z -> double -> bool) : Backend := {|
  Curve := Curve;
  Point := Point;
  Fld := Fld;
  Isogeny := Isogeny;
  Float := double;
  Field := Field;
  is_prime := is_prime;
  sqrt_all := sqrt_all;
  math_sqrt := msqrt;
  float_mul := mul;
  float_10e_4 := lit_10e_4;
  float_10e4 := lit_10e4;
  float_le_int := fle;
  int_le_float := ile;
  FiniteField := FiniteField;
  EllipticCurve := EllipticCurve;
  is_supersingular := is_supersingular;
  gens := gens;
  is_on_curve := is_on_curve;
  infinity := infinity;
  j_invariant := j_invariant;
  curve_of := curve_of;
  padd := padd;
  smul := smul;
  point_eqb := point_eqb;
  xy := xy;
  point_order := point_order;
  weil_pairing := weil_pairing;
  fpow := fpow;
  fld_eqb := fld_eqb;
  isogeny := isogeny;
  codomain := codomain;
  isog_eval := isog_eval
|}.

Definition sage_integers (BK : Backend) : Backend :=
  with_floats BK sage_math_sqrt sage_float_le_int sage_int_le_float.

Definition python_ints (BK : Backend) : Backend :=
  with_floats BK python_math_sqrt python_float_le_int python_int_le_float.

(** A parameter set with the Mersenne prime [2^1279 - 1] as modulus,
    [A = 2^639], [B = 2^640] and [f = 1], over the accepting backend
    with the floats of Sage integers. *)
Definition pr_huge : @MSIDH_Parameters (sage_integers Accepting.backend) :=
  @assembled (sage_integers Accepting.backend)
    256 1 (2 ^ 1279 - 1) tt (2 ^ 639) (2 ^ 640) 1 (-1).

Definition pr_huge_python : @MSIDH_Parameters (python_ints Accepting.backend) :=
  @assembled (python_ints Accepting.backend)
    256 1 (2 ^ 1279 - 1) tt (2 ^ 639) (2 ^ 640) 1 (-1).

End Doubles.

(** * Proofs *)

(** ** The result monad *)

Lemma bind_Ok_inv {T U : Type} (c : result T) (k : T -> result U) (u : U) :
  bind c k = Ok u -> exists v, c = Ok v /\ k v = Ok u.
Proof.
  destruct c as [v | e]; simpl; intros H; [eauto | discriminate].
Qed.

Lemma assert_Ok_inv (c : bool) (msg : string) :
  assert_ c msg = Ok tt -> c = true.
Proof. destruct c; simpl; [reflexivity | discriminate]. Qed.


(** ** Construction and validation of a parameter set *)

Section Construction.
Context {BK : Backend}.

Lemma unpack2_Ok_inv {T : Type} (l : list T) (a b : T) :
  unpack2 l = Ok (a, b) -> l = [a; b].
Proof.
  destruct l as [|x [|y [|z l]]]; simpl; intros H; try discriminate.
  injection H as -> ->. reflexivity.
Qed.

Lemma init_with_gens lamb f p E0 A B G1 G2 :
  gens E0 = [G1; G2] ->
  MSIDH_Parameters_init lamb f p E0 A B =
  (ok <- verify_parameters (assembled lamb f p E0 A B G1 G2) ;;
   if negb ok then Raise (Exception "Invalid parameters")
   else Ok (assembled lamb f p E0 A B G1 G2)).
Proof.
  intros HG. unfold MSIDH_Parameters_init. rewrite HG. reflexivity.
Qed.

Lemma init_verified lamb f p E0 A B G1 G2 :
  gens E0 = [G1; G2] ->
  verify_parameters (assembled lamb f p E0 A B G1 G2) = Ok true ->
  MSIDH_Parameters_init lamb f p E0 A B
  = Ok (assembled lamb f p E0 A B G1 G2).
Proof.
  intros HG Hv. rewrite (init_with_gens _ _ _ _ _ _ G1 G2 HG), Hv.
  reflexivity.
Qed.

Lemma init_refused lamb f p E0 A B G1 G2 :
  gens E0 = [G1; G2] ->
  verify_parameters (assembled lamb f p E0 A B G1 G2) = Ok false ->
  MSIDH_Parameters_init lamb f p E0 A B
  = Raise (Exception "Invalid parameters").
Proof.
  intros HG Hv. rewrite (init_with_gens _ _ _ _ _ _ G1 G2 HG), Hv.
  reflexivity.
Qed.

Lemma init_Ok_inv lamb f p E0 A B pr :
  MSIDH_Parameters_init lamb f p E0 A B = Ok pr ->
  exists G1 G2, gens E0 = [G1; G2]
    /\ pr = assembled lamb f p E0 A B G1 G2
    /\ verify_parameters pr = Ok true.
Proof.
  intros H.
  destruct (gens E0) as [|G1 [|G2 [|G3 l]]] eqn:HG;
    try (unfold MSIDH_Parameters_init in H; rewrite HG in H; discriminate).
  rewrite (init_with_gens _ _ _ _ _ _ G1 G2 HG) in H.
  apply bind_Ok_inv in H. destruct H as [ok [Hv Hk]].
  destruct ok; simpl in Hk; [|discriminate].
  injection Hk as <-. exists G1, G2. auto.
Qed.

Lemma on_curve_check_cases curve P :
  on_curve_check curve P = Ok true \/ on_curve_check curve P = Ok false
  \/ exists e, on_curve_check curve P = Raise e.
Proof.
  unfold on_curve_check. destruct (xy P) as [[x y] | e]; simpl; eauto.
  destruct (is_on_curve curve x y); auto.
Qed.

(** [verify_parameters] answers [True] exactly on the nine invariants. *)
Lemma verify_true_iff pr :
  verify_parameters pr = Ok true <-> nine_invariants pr.
Proof.
  unfold verify_parameters. split.
  - intros H.
    destruct (is_supersingular (E0 pr)) eqn:H1; simpl in H; [|discriminate].
    destruct (is_prime (p pr)) eqn:H2; simpl in H; [|discriminate].
    destruct (p pr =? A pr * B pr * f pr - 1) eqn:H3; simpl in H;
      [|discriminate].
    destruct (math_sqrt (p pr)) as [s|e] eqn:Hs; simpl in H; [|discriminate].
    destruct (float_le_int (float_mul s float_10e_4) (A pr)) eqn:F1;
      simpl in H; [|discriminate].
    destruct (int_le_float (A pr) (float_mul s float_10e4)) eqn:F2;
      simpl in H; [|discriminate].
    destruct (float_le_int (float_mul s float_10e_4) (B pr)) eqn:F3;
      simpl in H; [|discriminate].
    destruct (int_le_float (B pr) (float_mul s float_10e4)) eqn:F4;
      simpl in H; [|discriminate].
    destruct (Z.gcd (A pr) (B pr) =? 1) eqn:H5; simpl in H; [|discriminate].
    destruct (on_curve_check (E0 pr) (PA pr)) as [[|]|e] eqn:C1; simpl in H;
      try discriminate.
    2:{ destruct (on_curve_check (E0 pr) (QA pr)) as [?|?]; simpl in H;
          [|discriminate].
        destruct (on_curve_check (E0 pr) (PB pr)) as [?|?]; simpl in H;
          [|discriminate].
        destruct (on_curve_check (E0 pr) (QB pr)) as [?|?]; simpl in H;
          discriminate. }
    destruct (on_curve_check (E0 pr) (QA pr)) as [[|]|e] eqn:C2; simpl in H;
      try discriminate.
    2:{ destruct (on_curve_check (E0 pr) (PB pr)) as [?|?]; simpl in H;
          [|discriminate].
        destruct (on_curve_check (E0 pr) (QB pr)) as [?|?]; simpl in H;
          discriminate. }
    destruct (on_curve_check (E0 pr) (PB pr)) as [[|]|e] eqn:C3; simpl in H;
      try discriminate.
    2:{ destruct (on_curve_check (E0 pr) (QB pr)) as [?|?]; simpl in H;
          discriminate. }
    destruct (on_curve_check (E0 pr) (QB pr)) as [[|]|e] eqn:C4; simpl in H;
      try discriminate.
    destruct (point_order (PA pr) =? A pr) eqn:O1; simpl in H; [|discriminate].
    destruct (point_order (QA pr) =? A pr) eqn:O2; simpl in H; [|discriminate].
    destruct (point_order (PB pr) =? B pr) eqn:O3; simpl in H; [|discriminate].
    destruct (point_order (QB pr) =? B pr) eqn:O4; simpl in H; [|discriminate].
    destruct (point_eqb (PA pr) (QA pr)) eqn:D1; simpl in H; [discriminate|].
    destruct (point_eqb (PB pr) (QB pr)) eqn:D2; simpl in H; [discriminate|].
    destruct (point_eqb (PA pr) (infinity (E0 pr))) eqn:T1; simpl in H;
      [discriminate|].
    destruct (point_eqb (QA pr) (infinity (E0 pr))) eqn:T2; simpl in H;
      [discriminate|].
    destruct (point_eqb (PB pr) (infinity (E0 pr))) eqn:T3; simpl in H;
      [discriminate|].
    destruct (point_eqb (QB pr) (infinity (E0 pr))) eqn:T4; simpl in H;
      [discriminate|].
    apply Z.eqb_eq in H3, H5, O1, O2, O3, O4.
    split; auto.
    exists s. auto.
  - intros [H1 H2 H3 [s [Hs [F1 [F2 [F3 F4]]]]] H5 [C1 [C2 [C3 C4]]]
            [O1 [O2 [O3 O4]]] [D1 D2] [T1 [T2 [T3 T4]]]].
    rewrite H1, H2. simpl.
    apply Z.eqb_eq in H3, H5, O1, O2, O3, O4.
    rewrite H3, Hs. simpl. rewrite F1, F2, F3, F4, H5. simpl.
    rewrite C1, C2, C3, C4. simpl.
    rewrite O1, O2, O3, O4, D1, D2. simpl.
    rewrite T1, T2, T3, T4. reflexivity.
Qed.

(** A parameter set whose prime test fails is never constructed. *)
Lemma init_not_prime lamb f p E0 A B :
  is_prime p = false ->
  exists e, MSIDH_Parameters_init lamb f p E0 A B = Raise e.
Proof.
  intros Hp.
  destruct (MSIDH_Parameters_init lamb f p E0 A B) as [pr|e] eqn:H; eauto.
  apply init_Ok_inv in H. destruct H as [G1 [G2 [_ [-> Hv]]]].
  apply verify_true_iff in Hv. destruct Hv as [_ Hprime _ _ _ _ _ _ _].
  simpl in Hprime. congruence.
Qed.

End Construction.

(** ** The exchange between the two parties *)

Section Protocol.
Context {BK : Backend}.
Hypothesis ML : ModuleLaws.

Lemma smul_order P : smul (point_order P) P = infinity (curve_of P).
Proof. apply (point_order_spec ML). apply Z.divide_refl. Qed.

Lemma smul_comm a b P : smul a (smul b P) = smul b (smul a P).
Proof. rewrite !(smul_smul ML). f_equal. apply Z.mul_comm. Qed.

Lemma init_wellformed lamb f p E0 A B pr :
  MSIDH_Parameters_init lamb f p E0 A B = Ok pr -> WellFormed pr.
Proof.
  intros H. apply init_Ok_inv in H. destruct H as [G1 [G2 [HG [-> Hv]]]].
  apply verify_true_iff in Hv.
  destruct Hv as [_ _ _ _ Hc _ [O1 [O2 [O3 O4]]] _ _].
  assert (C1 : curve_of G1 = E0).
  { apply (gens_curve ML). rewrite HG. simpl. auto. }
  assert (C2 : curve_of G2 = E0).
  { apply (gens_curve ML). rewrite HG. simpl. auto. }
  split; simpl in *; auto;
    try (rewrite !(curve_of_smul ML); assumption).
  - intros x y Hxy. rewrite !(smul_smul ML) in *.
    apply (gens_independent ML E0 G1 G2 _ _ HG Hxy).
  - intros x y Hxy. rewrite !(smul_smul ML) in *.
    apply (gens_independent ML E0 G1 G2 _ _ HG Hxy).
Qed.

Lemma wellformed_swap pr : WellFormed pr -> WellFormed (swap_roles pr).
Proof.
  intros W. destruct W. split; simpl; auto.
  rewrite Z.gcd_comm. assumption.
Qed.

(** The kernel generator [P + b * Q] built from an independent pair of
    points of order [n] is annihilated by [n] and has order [n]. *)
Lemma kernel_annihilated E P Q n b :
  curve_of P = E -> curve_of Q = E ->
  point_order P = n -> point_order Q = n ->
  smul n (padd P (smul b Q)) = infinity E.
Proof.
  intros CP CQ OP OQ.
  rewrite (smul_add_r ML) by (rewrite (curve_of_smul ML); congruence).
  rewrite (smul_comm n b Q).
  rewrite <- OP at 1. rewrite <- OQ. rewrite !smul_order.
  rewrite CP, CQ, (smul_inf ML). apply (padd_inf_inf ML).
Qed.

Lemma kernel_order E P Q n b :
  curve_of P = E -> curve_of Q = E ->
  point_order P = n -> point_order Q = n ->
  independent E P Q ->
  point_order (padd P (smul b Q)) = n.
Proof.
  intros CP CQ OP OQ Hind.
  set (K := padd P (smul b Q)).
  assert (CK : curve_of K = E).
  { unfold K. rewrite (curve_of_padd ML). exact CP. }
  apply Z.divide_antisym_nonneg.
  - apply Z.lt_le_incl, (point_order_pos ML).
  - rewrite <- OP. apply Z.lt_le_incl, (point_order_pos ML).
  - apply (point_order_spec ML). rewrite CK.
    apply kernel_annihilated; assumption.
  - assert (HK : smul (point_order K) K = infinity E).
    { rewrite smul_order, CK. reflexivity. }
    unfold K in HK at 2.
    rewrite (smul_add_r ML) in HK
      by (rewrite (curve_of_smul ML); congruence).
    rewrite (smul_smul ML) in HK.
    apply Hind in HK. destruct HK as [HP _].
    rewrite <- CP in HP. apply (point_order_spec ML) in HP.
    rewrite OP in HP. exact HP.
Qed.

Hypothesis PL : PairingLaws.
Hypothesis IL : IsogenyLaws.

Lemma fld_eqb_refl v : fld_eqb v v = true.
Proof. apply (fld_eqb_eq PL). reflexivity. Qed.

Lemma mask_exponent n m d :
  (m * m) mod n = 1 mod n -> (d * (m * m)) mod n = d mod n.
Proof.
  intros H. rewrite Zmult_mod, H, <- Zmult_mod. f_equal. ring.
Qed.

(** Party A, holding any scalar [a], receives the public key that party B
    derives from a private key [(beta, b)] whose mask squares to 1 modulo
    [A]: the two pairing values agree, and the secret A computes is the
    j-invariant of the curve reached from B's curve by the image of A's
    own kernel generator. *)
Lemma honest_run_A pr alpha a beta b :
  WellFormed pr ->
  (beta * beta) mod (A pr) = 1 mod (A pr) ->
  let KA := padd (PA pr) (smul a (QA pr)) in
  let KB := padd (PB pr) (smul b (QB pr)) in
  exists phiB psi v,
    isogeny (E0 pr) KB Factored = Ok phiB
    /\ isogeny (codomain phiB) (isog_eval phiB KA) Factored = Ok psi
    /\ MSIDH_Party_B.compute_public_key pr (beta, b)
       = Ok (codomain phiB, smul beta (isog_eval phiB (PA pr)),
             smul beta (isog_eval phiB (QA pr)))
    /\ MSIDH_Party_A.pairing_values pr
         (codomain phiB, smul beta (isog_eval phiB (PA pr)),
          smul beta (isog_eval phiB (QA pr))) = Ok (v, v)
    /\ MSIDH_Party_A.compute_shared_secret pr (alpha, a)
         (codomain phiB, smul beta (isog_eval phiB (PA pr)),
          smul beta (isog_eval phiB (QA pr)))
       = Ok (j_invariant (codomain psi)).
Proof.
  intros W Hbeta KA KB. destruct W.
  assert (CKB : curve_of KB = E0 pr).
  { unfold KB. rewrite (curve_of_padd ML). assumption. }
  assert (CKA : curve_of KA = E0 pr).
  { unfold KA. rewrite (curve_of_padd ML). assumption. }
  destruct (isogeny_defined IL (E0 pr) KB Factored CKB) as [phiB HphiB].
  set (R0 := isog_eval phiB (PA pr)). set (S0 := isog_eval phiB (QA pr)).
  assert (CR0 : curve_of R0 = codomain phiB).
  { apply (curve_of_eval IL _ _ _ _ _ HphiB). assumption. }
  assert (CS0 : curve_of S0 = codomain phiB).
  { apply (curve_of_eval IL _ _ _ _ _ HphiB). assumption. }
  assert (HK : isog_eval phiB KA = padd R0 (smul a S0)).
  { unfold KA, R0, S0.
    rewrite (eval_add IL _ _ _ _ _ _ HphiB); auto.
    - rewrite (eval_smul IL _ _ _ _ _ _ HphiB); auto.
    - rewrite (curve_of_smul ML). assumption. }
  assert (CK : curve_of (isog_eval phiB KA) = codomain phiB).
  { apply (curve_of_eval IL _ _ _ _ _ HphiB). assumption. }
  destruct (isogeny_defined IL _ _ Factored CK) as [psi Hpsi].
  assert (HL : padd (smul beta R0) (smul a (smul beta S0))
               = smul beta (isog_eval phiB KA)).
  { rewrite HK, (smul_comm a beta S0). symmetry. apply (smul_add_r ML).
    rewrite (curve_of_smul ML). congruence. }
  assert (CL : curve_of (smul beta (isog_eval phiB KA)) = codomain phiB).
  { rewrite (curve_of_smul ML). assumption. }
  destruct (isogeny_defined IL _ _ Factored CL) as [psiA HpsiA].
  assert (TK : smul (A pr) (isog_eval phiB KA) = infinity (codomain phiB)).
  { rewrite <- (eval_smul IL _ _ _ _ _ _ HphiB) by assumption.
    unfold KA. rewrite (kernel_annihilated (E0 pr)); auto.
    apply (eval_inf IL _ _ _ _ HphiB). }
  assert (J : j_invariant (codomain psi) = j_invariant (codomain psiA)).
  { apply (isogeny_unit_multiple IL _ _ beta (A pr) _ _ _ _ Hpsi HpsiA TK Hbeta). }
  (* the pairing values *)
  destruct (weil_defined PL (PA pr) (QA pr) (A pr)) as [v0 Hv0].
  { congruence. }
  { rewrite <- wf_order_PA0. apply smul_order. }
  { rewrite <- wf_order_QA0. apply smul_order. }
  assert (Hv1 : weil_pairing R0 S0 (A pr) = Ok (fpow v0 (B pr))).
  { unfold R0, S0.
    rewrite (weil_isogeny PL _ _ _ _ _ _ _ _ HphiB wf_curve_PA0 wf_curve_QA0 Hv0).
    unfold KB. rewrite (kernel_order (E0 pr) _ _ (B pr)); auto. }
  assert (Hv2 : weil_pairing (smul beta R0) (smul beta S0) (A pr)
                = Ok (fpow v0 (B pr))).
  { rewrite (weil_smul PL _ _ _ beta _ Hv1). f_equal.
    rewrite (fpow_fpow PL).
    apply (fpow_mod PL _ _ _ _ _ _ Hv0). apply mask_exponent. assumption. }
  assert (Hpv : MSIDH_Party_A.pairing_values pr
                  (codomain phiB, smul beta R0, smul beta S0)
                = Ok (fpow v0 (B pr), fpow v0 (B pr))).
  { unfold MSIDH_Party_A.pairing_values. rewrite Hv2. simpl.
    rewrite Hv0. reflexivity. }
  exists phiB, psi, (fpow v0 (B pr)). fold R0 S0.
  split; [assumption|]. split; [assumption|]. split.
  { unfold MSIDH_Party_B.compute_public_key. simpl. fold KB.
    rewrite HphiB. reflexivity. }
  split; [assumption|].
  unfold MSIDH_Party_A.compute_shared_secret. rewrite Hpv. simpl.
  rewrite fld_eqb_refl. simpl. rewrite HL, HpsiA. simpl.
  rewrite J. reflexivity.
Qed.

End Protocol.

(** ** Sampling: [randrange], [mewtwo], [generate_private_key] *)

Section Sampling.
Context {BK : Backend}.

Lemma In_range x n : In x (range n) <-> 0 <= x < n.
Proof.
  unfold range. rewrite in_map_iff. split.
  - intros [k [<- Hk]]. apply in_seq in Hk. lia.
  - intros H. exists (Z.to_nat x). split; [lia|]. apply in_seq. lia.
Qed.

Lemma NoDup_range n : NoDup (range n).
Proof.
  unfold range. apply Injective_map_NoDup.
  - intros a b H. lia.
  - apply seq_NoDup.
Qed.

Lemma randrange_pos n : 0 < n -> randrange n = map Ok (range n).
Proof.
  intros H. unfold randrange.
  destruct (n <=? 0) eqn:E; [apply Z.leb_le in E; lia | reflexivity].
Qed.

Lemma In_Ok_randrange r n : In (Ok r) (randrange n) -> 0 <= r < n.
Proof.
  unfold randrange. destruct (n <=? 0).
  - intros [H | []]. discriminate.
  - rewrite in_map_iff. intros [x [Hx Hin]]. injection Hx as ->.
    apply In_range. assumption.
Qed.

Lemma In_Ok_dbind {T U : Type} (d : Dist T) (k : T -> Dist U) (u : U) :
  In (Ok u) (dbind d k) <-> exists v, In (Ok v) d /\ In (Ok u) (k v).
Proof.
  unfold dbind. rewrite in_flat_map. split.
  - intros [[v | e] [Hin Hu]].
    + eauto.
    + destruct Hu as [Hu | []]. discriminate.
  - intros [v [Hin Hu]]. exists (Ok v). auto.
Qed.

Lemma dbind_map_Ok {T U : Type} (l : list T) (k : T -> Dist U) :
  dbind (map Ok l) k = flat_map k l.
Proof.
  unfold dbind. induction l as [|x l IH]; simpl; [reflexivity|].
  rewrite IH. reflexivity.
Qed.

Lemma flat_map_singleton {T U : Type} (g : T -> U) (l : list T) :
  flat_map (fun x => [g x]) l = map g l.
Proof. induction l as [|x l IH]; simpl; [|rewrite IH]; reflexivity. Qed.

Lemma flat_map_ext_in {T U : Type} (g h : T -> list U) (l : list T) :
  (forall x, In x l -> g x = h x) -> flat_map g l = flat_map h l.
Proof.
  induction l as [|x l IH]; simpl; intros H; [reflexivity|].
  rewrite (H x) by auto. rewrite IH by auto. reflexivity.
Qed.

Lemma map_nth_error_seq {T : Type} (l : list T) :
  map (nth_error l) (seq 0 (List.length l)) = map Some l.
Proof.
  induction l as [|x l IH]; simpl; [reflexivity|].
  f_equal. rewrite <- seq_shift, map_map. exact IH.
Qed.

(** Indexing a list by every position in turn reads the list. *)
Lemma map_index_range {T : Type} (l : list T) :
  map (index l) (range (Z.of_nat (List.length l))) = map Ok l.
Proof.
  unfold range, index. rewrite Nat2Z.id, map_map.
  transitivity (map (fun o : option T => match o with
                                          | Some v => Ok v
                                          | None => Raise IndexError
                                          end)
                    (map (nth_error l) (seq 0 (List.length l)))).
  - rewrite map_map. apply map_ext. intros k. rewrite Nat2Z.id. reflexivity.
  - rewrite map_nth_error_seq, map_map. reflexivity.
Qed.

(** Every value [mewtwo] returns has passed its assertion. *)
Lemma mewtwo_Ok_sound b x :
  In (Ok x) (mewtwo b) -> (x * x) mod b = 1 mod b.
Proof.
  unfold mewtwo. intros H.
  apply In_Ok_dbind in H. destruct H as [sqs [_ H]].
  apply In_Ok_dbind in H. destruct H as [rand [_ H]].
  apply In_Ok_dbind in H. destruct H as [res [_ H]].
  apply In_Ok_dbind in H. destruct H as [[] [Ha H]].
  destruct H as [H | []]. injection H as ->.
  destruct Ha as [Ha | []]. apply assert_Ok_inv in Ha.
  apply Z.eqb_eq. exact Ha.
Qed.

(** When the backend lists the roots, [mewtwo] returns each entry of that
    list in exactly one run. *)
Lemma mewtwo_eq b sqs :
  sqrt_all b = Ok sqs -> sqs <> [] ->
  (forall x, In x sqs -> (x * x) mod b = 1 mod b) ->
  mewtwo b = map Ok sqs.
Proof.
  intros Hs Hne Hroot. unfold mewtwo. rewrite Hs.
  unfold dlift at 1. unfold dbind at 1. simpl. rewrite app_nil_r.
  rewrite randrange_pos.
  2:{ destruct sqs; [congruence | simpl; lia]. }
  rewrite dbind_map_Ok.
  set (g := fun r : result Z =>
              res <~ dlift r ;;
              _ <~ dlift (assert_ ((res * res) mod b =? 1 mod b) "") ;;
              dret res).
  change (flat_map (fun rand => g (index sqs rand))
                   (range (Z.of_nat (List.length sqs))) = map Ok sqs).
  rewrite (flat_map_concat_map (fun rand => g (index sqs rand))).
  rewrite <- (map_map (index sqs) g), map_index_range, map_map.
  rewrite <- flat_map_concat_map.
  rewrite <- (flat_map_singleton Ok sqs).
  apply flat_map_ext_in. intros x Hx. unfold g, dlift, dbind, dret. simpl.
  apply Hroot in Hx. apply Z.eqb_eq in Hx. rewrite Hx. reflexivity.
Qed.

Lemma root_exists b : 0 < b -> 0 <= 1 mod b < b /\ (1 mod b * (1 mod b)) mod b = 1 mod b.
Proof.
  intros Hb. split; [apply Z.mod_pos_bound; assumption|].
  rewrite <- Zmult_mod. reflexivity.
Qed.

Lemma mewtwo_roots b :
  SqrtLaw -> 0 < b ->
  exists l, mewtwo b = map Ok l /\ NoDup l /\
            forall x, In x l <-> (0 <= x < b /\ (x * x) mod b = 1 mod b).
Proof.
  intros SL Hb. destruct (SL b Hb) as [l [Hs [Hnd Hin]]].
  exists l. split; [|auto].
  apply mewtwo_eq; auto.
  - intros ->. apply (Hin (1 mod b)). apply root_exists. assumption.
  - intros x Hx. apply Hin in Hx. tauto.
Qed.

Lemma pairs_eq {T U : Type} (l : list T) (l' : list U) :
  flat_map (fun x => flat_map (fun y => [@Ok (T * U) (x, y)]) l') l
  = map Ok (list_prod l l').
Proof.
  induction l as [|x l IH]; simpl; [reflexivity|].
  rewrite IH, map_app, flat_map_singleton, map_map. reflexivity.
Qed.

Lemma keys_eq (d : Dist Z) (l : list Z) (n : Z) :
  d = map Ok l -> 0 < n ->
  (alpha <~ d ;; a <~ randrange n ;; dret (alpha, a))
  = map Ok (list_prod l (range n)).
Proof.
  intros -> Hn. rewrite dbind_map_Ok, randrange_pos by assumption.
  rewrite <- pairs_eq. apply flat_map_ext_in. intros x _.
  rewrite dbind_map_Ok. reflexivity.
Qed.

(** C3.  For every modulus [b >= 1], the runs of [mewtwo b] end without
    an exception in the representatives of the square roots of 1 modulo
    [b], each root in exactly one run: the sampler is uniform over all
    the roots the backend enumerates, which are all of them. *)
Theorem mewtwo_uniform_on_roots (b : Z) :
  SqrtLaw -> 0 < b ->
  exists l, mewtwo b = map Ok l /\ NoDup l /\
            forall x, In x l <-> (0 <= x < b /\ (x * x) mod b = 1 mod b).
Proof. apply mewtwo_roots. Qed.

(** The keys alone, console output left aside: for positive degrees,
    [generate_private_key] of role A has one run for every pair of a
    square root of 1 modulo [B] and a scalar of [range(A)], and role B
    one for every pair of a root modulo [A] and a scalar of
    [range(B)]. *)
Theorem generate_private_key_distribution (pr : MSIDH_Parameters) :
  SqrtLaw -> 0 < A pr -> 0 < B pr ->
  (exists masks,
      NoDup masks
      /\ (forall x, In x masks <->
                    (0 <= x < B pr /\ (x * x) mod B pr = 1 mod B pr))
      /\ MSIDH_Party_A.generate_private_key pr
         = map Ok (list_prod masks (range (A pr))))
  /\ (exists masks,
         NoDup masks
         /\ (forall x, In x masks <->
                       (0 <= x < A pr /\ (x * x) mod A pr = 1 mod A pr))
         /\ MSIDH_Party_B.generate_private_key pr
            = map Ok (list_prod masks (range (B pr)))).
Proof.
  intros SL HA HB. split.
  - destruct (mewtwo_roots (B pr) SL HB) as [l [Hm [Hnd Hin]]].
    exists l. split; [assumption|]. split; [assumption|].
    unfold MSIDH_Party_A.generate_private_key. apply keys_eq; assumption.
  - destruct (mewtwo_roots (A pr) SL HA) as [l [Hm [Hnd Hin]]].
    exists l. split; [assumption|]. split; [assumption|].
    unfold MSIDH_Party_B.generate_private_key. apply keys_eq; assumption.
Qed.

(** A private key some run of [generate_private_key] returns has a mask
    that squares to 1 modulo the peer's degree and a scalar below the
    own degree. *)
Lemma generated_key_A pr alpha a :
  In (Ok (alpha, a)) (MSIDH_Party_A.generate_private_key pr) ->
  (alpha * alpha) mod B pr = 1 mod B pr /\ 0 <= a < A pr.
Proof.
  unfold MSIDH_Party_A.generate_private_key. intros H.
  apply In_Ok_dbind in H. destruct H as [x [Hx H]].
  apply In_Ok_dbind in H. destruct H as [y [Hy H]].
  destruct H as [H | []]. injection H as -> ->.
  split; [apply mewtwo_Ok_sound | apply In_Ok_randrange]; assumption.
Qed.

Lemma generated_key_B pr beta b :
  In (Ok (beta, b)) (MSIDH_Party_B.generate_private_key pr) ->
  (beta * beta) mod A pr = 1 mod A pr /\ 0 <= b < B pr.
Proof.
  unfold MSIDH_Party_B.generate_private_key. intros H.
  apply In_Ok_dbind in H. destruct H as [x [Hx H]].
  apply In_Ok_dbind in H. destruct H as [y [Hy H]].
  destruct H as [H | []]. injection H as -> ->.
  split; [apply mewtwo_Ok_sound | apply In_Ok_randrange]; assumption.
Qed.

End Sampling.

(** ** Arithmetic used by the small backend *)

Module ToyFacts.
Import Toy.

Lemma N_pos : 0 < N.
Proof. reflexivity. Qed.

Lemma N_neq : N <> 0.
Proof. discriminate. Qed.

Definition cong (a b : Z) : Prop := a mod N = b mod N.

#[local] Instance cong_equiv : Equivalence cong.
Proof.
  split; unfold cong; [intros x | intros x y H | intros x y z H1 H2]; congruence.
Qed.

#[local] Instance cong_add : Proper (cong ==> cong ==> cong) Z.add.
Proof.
  intros a a' Ha b b' Hb. unfold cong in *.
  rewrite (Zplus_mod a b), (Zplus_mod a' b'). congruence.
Qed.

#[local] Instance cong_mul : Proper (cong ==> cong ==> cong) Z.mul.
Proof.
  intros a a' Ha b b' Hb. unfold cong in *.
  rewrite (Zmult_mod a b), (Zmult_mod a' b'). congruence.
Qed.

#[local] Instance cong_sub : Proper (cong ==> cong ==> cong) Z.sub.
Proof.
  intros a a' Ha b b' Hb. unfold cong in *.
  rewrite (Zminus_mod a b), (Zminus_mod a' b'). congruence.
Qed.

Lemma cong_mod a : cong (a mod N) a.
Proof. unfold cong. apply Zmod_mod. Qed.

Ltac modN :=
  match goal with
  | |- ?a mod N = ?b mod N => change (cong a b)
  end;
  rewrite ?cong_mod; unfold cong; f_equal; ring.

Lemma mod0_divide a : a mod N = 0 <-> (N | a).
Proof. apply Z.mod_divide, N_neq. Qed.

Lemma is_zero_iff P : t_is_zero P = true <-> (N | px P) /\ (N | py P).
Proof.
  unfold t_is_zero. rewrite andb_true_iff, !Z.eqb_eq, !mod0_divide.
  reflexivity.
Qed.

Lemma pt_eq (P Q : pt) : pc P = pc Q -> px P = px Q -> py P = py Q -> P = Q.
Proof. destruct P, Q; simpl; intros; subst; reflexivity. Qed.

(** [k * P] is the neutral point exactly when [N] divides both scaled
    coordinates. *)
Lemma smul_zero_iff k P :
  t_smul k P = t_infinity (pc P) <-> (N | k * px P) /\ (N | k * py P).
Proof.
  rewrite <- !mod0_divide. split.
  - intros H. split; [apply (f_equal px) in H | apply (f_equal py) in H];
      exact H.
  - intros [Hx Hy]. apply pt_eq; simpl; auto.
Qed.

Lemma gcd3_pos x y : 0 < Z.gcd (Z.gcd x y) N.
Proof.
  assert (H := Z.gcd_nonneg (Z.gcd x y) N).
  assert (Z.gcd (Z.gcd x y) N <> 0); [|lia].
  intros E. apply Z.gcd_eq_0_r in E. discriminate.
Qed.

Lemma gcd3_div_N x y : (Z.gcd (Z.gcd x y) N | N).
Proof. apply Z.gcd_divide_r. Qed.

Lemma order_mul_gcd P : t_order P * Z.gcd (Z.gcd (px P) (py P)) N = N.
Proof.
  unfold t_order. destruct (gcd3_div_N (px P) (py P)) as [c Hc].
  rewrite Hc at 1. rewrite Z.div_mul; [symmetry; exact Hc|].
  assert (H := gcd3_pos (px P) (py P)). lia.
Qed.

Lemma order_pos P : 0 < t_order P.
Proof.
  assert (H := order_mul_gcd P). assert (G := gcd3_pos (px P) (py P)).
  assert (HN := N_pos). nia.
Qed.

Lemma order_spec k P :
  (N | k * px P) /\ (N | k * py P) <-> (t_order P | k).
Proof.
  set (g := Z.gcd (Z.gcd (px P) (py P)) N).
  assert (Hg : t_order P * g = N) by apply order_mul_gcd.
  assert (Gp : 0 < g) by apply gcd3_pos.
  assert (Dx : (g | px P)).
  { eapply Z.divide_trans; [apply Z.gcd_divide_l | apply Z.gcd_divide_l]. }
  assert (Dy : (g | py P)).
  { eapply Z.divide_trans; [apply Z.gcd_divide_l | apply Z.gcd_divide_r]. }
  split.
  - intros [Hx Hy].
    assert (H1 : (N | k * Z.gcd (px P) (py P))).
    { destruct (Z.gcd_bezout (px P) (py P) _ eq_refl) as [u [v Huv]].
      rewrite <- Huv.
      replace (k * (u * px P + v * py P))
        with (u * (k * px P) + v * (k * py P)) by ring.
      apply Z.divide_add_r; apply Z.divide_mul_r; assumption. }
    assert (H2 : (N | k * g)).
    { destruct (Z.gcd_bezout (Z.gcd (px P) (py P)) N _ eq_refl) as [u [v Huv]].
      fold g in Huv. rewrite <- Huv.
      replace (k * (u * Z.gcd (px P) (py P) + v * N))
        with (u * (k * Z.gcd (px P) (py P)) + (k * v) * N) by ring.
      apply Z.divide_add_r; [apply Z.divide_mul_r; assumption|].
      apply Z.divide_factor_r. }
    rewrite <- Hg in H2. destruct H2 as [c Hc]. exists c.
    apply Z.mul_cancel_r with (p := g); [lia|]. rewrite Hc. ring.
  - intros [c Hc]. destruct Dx as [a Ha]. destruct Dy as [b Hb]. split.
    + exists (c * a). rewrite Ha, Hc, <- Hg. ring.
    + exists (c * b). rewrite Hb, Hc, <- Hg. ring.
Qed.

Lemma smul_order_iff k P :
  t_smul k P = t_infinity (pc P) <-> (t_order P | k).
Proof. rewrite smul_zero_iff. apply order_spec. Qed.

(** Two points annihilated by the same integers have the same order. *)
Lemma order_ext P Q :
  (forall k, (t_order P | k) <-> (t_order Q | k)) -> t_order P = t_order Q.
Proof.
  intros H. apply Z.divide_antisym_nonneg.
  - apply Z.lt_le_incl, order_pos.
  - apply Z.lt_le_incl, order_pos.
  - apply H. apply Z.divide_refl.
  - apply H. apply Z.divide_refl.
Qed.

Lemma toy_module_laws : ModuleLaws.
Proof.
  split; simpl.
  - reflexivity.
  - reflexivity.
  - reflexivity.
  - reflexivity.
  - intros k E. unfold t_smul, t_infinity; simpl.
    rewrite Z.mul_0_r. reflexivity.
  - intros k P Q _. apply pt_eq; simpl; auto; modN.
  - intros a b P. apply pt_eq; simpl; auto; modN.
  - intros a b P. apply pt_eq; simpl; auto; modN.
  - apply order_pos.
  - intros k P. apply smul_order_iff.
  - intros E G [H | [H | []]]; subst G; reflexivity.
  - intros E G1 G2 x y HG H. unfold t_gens in HG.
    injection HG as <- <-. unfold t_smul, t_padd, t_infinity in *; simpl in *.
    injection H as Hx Hy.
    rewrite !Z.mul_0_r, !Z.mul_1_r in *.
    rewrite Zmod_0_l, Z.add_0_r, Zmod_mod in Hx.
    rewrite Zmod_0_l, Z.add_0_l, Zmod_mod in Hy.
    rewrite Hx, Hy. split; reflexivity.
Qed.


Lemma divide_mul_mod n a : (N | n * (a mod N)) <-> (N | n * a).
Proof.
  rewrite <- !mod0_divide.
  assert (E : (n * (a mod N)) mod N = (n * a) mod N) by modN.
  rewrite E. reflexivity.
Qed.

Lemma is_zero_smul n P :
  t_is_zero (t_smul n P) = true <-> (N | n * px P) /\ (N | n * py P).
Proof.
  rewrite is_zero_iff. simpl. rewrite <- !mod0_divide, !Zmod_mod.
  reflexivity.
Qed.

Lemma weil_Ok_inv P Q n v :
  t_weil P Q n = Ok v ->
  pc P = pc Q /\ ((N | n * px P) /\ (N | n * py P))
  /\ ((N | n * px Q) /\ (N | n * py Q))
  /\ v = (px P * py Q - px Q * py P) mod N.
Proof.
  unfold t_weil. destruct (pc P =? pc Q) eqn:Ec; simpl; [|discriminate].
  destruct (t_is_zero (t_smul n P)) eqn:EP; simpl; [|discriminate].
  destruct (t_is_zero (t_smul n Q)) eqn:EQ; simpl; [|discriminate].
  intros H. injection H as <-.
  apply Z.eqb_eq in Ec. apply is_zero_smul in EP. apply is_zero_smul in EQ.
  auto.
Qed.

Lemma weil_Ok_intro P Q n :
  pc P = pc Q -> (N | n * px P) /\ (N | n * py P) ->
  (N | n * px Q) /\ (N | n * py Q) ->
  t_weil P Q n = Ok ((px P * py Q - px Q * py P) mod N).
Proof.
  intros Ec HP HQ. unfold t_weil.
  apply Z.eqb_eq in Ec. rewrite Ec. simpl.
  apply is_zero_smul in HP. apply is_zero_smul in HQ.
  rewrite HP, HQ. reflexivity.
Qed.

Lemma isogeny_Ok_inv E K alg phi :
  t_isogeny E K alg = Ok phi ->
  pc K = E /\ phi = {| idom := E; ideg := t_order K |}.
Proof.
  unfold t_isogeny. destruct (pc K =? E) eqn:Ec; [|discriminate].
  intros H. injection H as <-. apply Z.eqb_eq in Ec. auto.
Qed.

Lemma toy_pairing_laws : PairingLaws.
Proof.
  split; simpl.
  - intros P Q n Ec HP HQ.
    apply smul_zero_iff in HP. apply smul_zero_iff in HQ.
    eexists. apply weil_Ok_intro; assumption.
  - intros P Q n k v H.
    apply weil_Ok_inv in H. destruct H as [Ec [[Px Py] [[Qx Qy] ->]]].
    rewrite (weil_Ok_intro (t_smul k P) (t_smul k Q) n); simpl; auto.
    + f_equal. unfold t_fpow. modN.
    + rewrite !divide_mul_mod. split.
      * destruct Px as [c Hc]. exists (k * c).
        replace (n * (k * px P)) with (k * (n * px P)) by ring.
        rewrite Hc. ring.
      * destruct Py as [c Hc]. exists (k * c).
        replace (n * (k * py P)) with (k * (n * py P)) by ring.
        rewrite Hc. ring.
    + rewrite !divide_mul_mod. split.
      * destruct Qx as [c Hc]. exists (k * c).
        replace (n * (k * px Q)) with (k * (n * px Q)) by ring.
        rewrite Hc. ring.
      * destruct Qy as [c Hc]. exists (k * c).
        replace (n * (k * py Q)) with (k * (n * py Q)) by ring.
        rewrite Hc. ring.
  - intros E K alg phi P Q n v Hphi HPE HQE H.
    apply isogeny_Ok_inv in Hphi. destruct Hphi as [_ ->].
    apply weil_Ok_inv in H. destruct H as [Ec [[Px Py] [[Qx Qy] ->]]].
    rewrite weil_Ok_intro; simpl; auto.
    + f_equal. unfold t_fpow. modN.
    + rewrite !divide_mul_mod. split; [|assumption].
      destruct Px as [c Hc]. exists (t_order K * c).
      replace (n * (t_order K * px P)) with (t_order K * (n * px P)) by ring.
      rewrite Hc. ring.
    + rewrite !divide_mul_mod. split; [|assumption].
      destruct Qx as [c Hc]. exists (t_order K * c).
      replace (n * (t_order K * px Q)) with (t_order K * (n * px Q)) by ring.
      rewrite Hc. ring.
  - intros v a b. unfold t_fpow. modN.
  - intros P Q n v a b H Hab.
    apply weil_Ok_inv in H. destruct H as [Ec [[Px Py] [[Qx Qy] ->]]].
    unfold t_fpow. set (d := px P * py Q - px Q * py P).
    transitivity ((d * a) mod N); [modN|].
    transitivity ((d * b) mod N); [|modN].
    apply Z.cong_iff_0. apply mod0_divide.
    apply Z.cong_iff_ex in Hab. destruct Hab as [t Ht].
    replace (d * a - d * b) with (d * (a - b)) by ring. rewrite Ht.
    destruct Px as [c1 H1]. destruct Qx as [c2 H2].
    exists (t * (c1 * py Q - c2 * py P)). unfold d.
    replace ((px P * py Q - px Q * py P) * (t * n))
      with (t * ((n * px P) * py Q - (n * px Q) * py P)) by ring.
    rewrite H1, H2. ring.
  - intros u v. apply Z.eqb_eq.
Qed.

(** An isogeny of degree prime to the order of a point keeps that
    order. *)
Lemma order_eval E d P :
  Z.gcd d (t_order P) = 1 ->
  t_order (t_eval {| idom := E; ideg := d |} P) = t_order P.
Proof.
  intros Hg. apply order_ext. intros k.
  rewrite <- !order_spec. simpl. rewrite !divide_mul_mod.
  split; intros [Hx Hy]; split; try assumption.
  - assert (Ho : (N | t_order P * px P)).
    { apply (order_spec (t_order P) P). apply Z.divide_refl. }
    destruct (Z.gcd_bezout d (t_order P) _ Hg) as [u [v Huv]].
    replace (k * px P) with ((u * d + v * t_order P) * (k * px P))
      by (rewrite Huv; ring).
    replace ((u * d + v * t_order P) * (k * px P))
      with (u * (k * (d * px P)) + (v * k) * (t_order P * px P)) by ring.
    apply Z.divide_add_r; apply Z.divide_mul_r; assumption.
  - destruct Hx as [c Hc]. exists (d * c).
    replace (k * (d * px P)) with (d * (k * px P)) by ring.
    rewrite Hc. ring.
Qed.

(** Scaling by a square root of 1 modulo an annihilator keeps the
    order. *)
Lemma order_smul_unit m n P :
  (N | n * px P) -> (N | n * py P) -> (m * m) mod n = 1 mod n ->
  t_order (t_smul m P) = t_order P.
Proof.
  intros Hnx Hny Hm. apply order_ext. intros k.
  rewrite <- !order_spec. simpl. rewrite !divide_mul_mod.
  apply Z.cong_iff_ex in Hm. destruct Hm as [t Ht].
  assert (Hmm : m * m = 1 + t * n) by lia.
  assert (step : forall c, (N | n * c) -> (N | k * (m * c)) -> (N | k * c)).
  { intros c Hn Hk.
    replace (k * c) with (m * (k * (m * c)) - (k * t) * (n * c)).
    - apply Z.divide_sub_r; apply Z.divide_mul_r; assumption.
    - replace (m * (k * (m * c))) with ((m * m) * (k * c)) by ring.
      rewrite Hmm. ring. }
  assert (back : forall c, (N | k * c) -> (N | k * (m * c))).
  { intros c [q Hq]. exists (m * q).
    replace (k * (m * c)) with (m * (k * c)) by ring. rewrite Hq. ring. }
  split; intros [Hx Hy]; split; auto.
Qed.

Lemma toy_isogeny_laws : IsogenyLaws.
Proof.
  split; simpl.
  - intros E K alg HK. unfold t_isogeny.
    apply Z.eqb_eq in HK. rewrite HK. eauto.
  - reflexivity.
  - intros E K alg phi _. apply pt_eq; simpl; auto.
    rewrite Z.mul_0_r. reflexivity.
  - intros E K alg phi P Q _ _ _. apply pt_eq; simpl; auto; modN.
  - intros E K alg phi k P _ _. apply pt_eq; simpl; auto; modN.
  - intros E K1 K2 n1 n2 a1 a2 a3 a4 phi1 phi2 psi1 psi2 H1 H2 H3 H4 T1 T2 Hg.
    apply isogeny_Ok_inv in H1. destruct H1 as [E1 ->].
    apply isogeny_Ok_inv in H2. destruct H2 as [E2 ->].
    apply isogeny_Ok_inv in H3. destruct H3 as [_ ->].
    apply isogeny_Ok_inv in H4. destruct H4 as [_ ->].
    rewrite <- E1 in T1. rewrite <- E2 in T2.
    apply smul_order_iff in T1. apply smul_order_iff in T2.
    assert (G12 : Z.gcd (t_order K1) (t_order K2) = 1).
    { apply Z.divide_antisym_nonneg; [apply Z.gcd_nonneg | lia | | apply Z.divide_1_l].
      rewrite <- Hg. apply Z.gcd_greatest.
      - eapply Z.divide_trans; [apply Z.gcd_divide_l | exact T1].
      - eapply Z.divide_trans; [apply Z.gcd_divide_r | exact T2]. }
    unfold t_codomain; simpl.
    rewrite (order_eval E (t_order K1) K2 G12).
    rewrite Z.gcd_comm in G12.
    rewrite (order_eval E (t_order K2) K1 G12).
    ring.
  - intros E K m n a1 a2 phi phi' H1 H2 T Hm.
    apply isogeny_Ok_inv in H1. destruct H1 as [E1 ->].
    apply isogeny_Ok_inv in H2. destruct H2 as [_ ->].
    rewrite <- E1 in T. apply smul_zero_iff in T. destruct T as [Tx Ty].
    unfold t_codomain; simpl.
    rewrite (order_smul_unit m n K Tx Ty Hm). reflexivity.
Qed.

Lemma toy_sqrt_law : SqrtLaw.
Proof.
  intros b Hb. simpl. unfold t_sqrt_all.
  destruct (b <=? 0) eqn:E; [apply Z.leb_le in E; lia|].
  eexists. split; [reflexivity|]. split.
  - apply NoDup_filter, NoDup_range.
  - intros x. rewrite filter_In, In_range, Z.eqb_eq. reflexivity.
Qed.

Lemma toy_prime_law : PrimeLaw.
Proof.
  intros n H. simpl in H. unfold trial_prime in H.
  apply andb_true_iff in H. destruct H as [H1 H2].
  apply Z.ltb_lt in H1. rewrite forallb_forall in H2.
  apply prime_alt. split; [assumption|].
  intros d Hd Hdiv.
  assert (Hin : In d (map (fun k => Z.of_nat k + 2) (seq 0 (Z.to_nat (n - 2))))).
  { apply in_map_iff. exists (Z.to_nat (d - 2)). split; [lia|].
    apply in_seq. lia. }
  apply H2 in Hin. unfold divides_b in Hin.
  apply negb_true_iff, Z.eqb_neq in Hin. apply Hin.
  apply Z.mod_divide; [lia | assumption].
Qed.

End ToyFacts.

(** ** The claims about construction *)

Section ConstructionClaims.
Context {BK : Backend}.

(** C6.  A constructed parameter set has its bases scaled from the two
    generators of the curve, first generator to first basis point:
    [PA = (B * G1) * f], [QA = (B * G2) * f], [PB = (A * G1) * f] and
    [QB = (A * G2) * f], which is [degreeB * cofactor * G] and
    [degreeA * cofactor * G]. *)
Theorem bases_scaled_from_generators lamb f p E0 A B pr :
  ModuleLaws ->
  MSIDH_Parameters_init lamb f p E0 A B = Ok pr ->
  exists G1 G2,
    gens E0 = [G1; G2]
    /\ (PA pr = smul f (smul B G1) /\ PA pr = smul (B * f) G1)
    /\ (QA pr = smul f (smul B G2) /\ QA pr = smul (B * f) G2)
    /\ (PB pr = smul f (smul A G1) /\ PB pr = smul (A * f) G1)
    /\ (QB pr = smul f (smul A G2) /\ QB pr = smul (A * f) G2).
Proof.
  intros ML H. apply init_Ok_inv in H. destruct H as [G1 [G2 [HG [-> _]]]].
  exists G1, G2. simpl.
  assert (E : forall n G, smul f (smul n G) = smul (n * f) G).
  { intros n G. rewrite (smul_smul ML). f_equal. apply Z.mul_comm. }
  rewrite !E. auto 10.
Qed.

(** C7, as the code has it.  Construction returns an object exactly when
    the curve has two generators and the assembled object satisfies the
    nine invariants, and validation answers [True] on that object.
    Otherwise it raises and no object is returned; the invariants do not
    all hold, and when validation answered [False] the exception is
    [Exception("Invalid parameters")], whichever invariant failed. *)
Theorem construction_characterised lamb f p E0 A B :
  match MSIDH_Parameters_init lamb f p E0 A B with
  | Ok pr =>
      (exists G1 G2, gens E0 = [G1; G2]
                     /\ pr = assembled lamb f p E0 A B G1 G2)
      /\ verify_parameters pr = Ok true
      /\ nine_invariants pr
  | Raise e =>
      forall G1 G2,
        gens E0 = [G1; G2] ->
        ~ nine_invariants (assembled lamb f p E0 A B G1 G2)
        /\ (verify_parameters (assembled lamb f p E0 A B G1 G2) = Ok false ->
            e = Exception "Invalid parameters")
  end.
Proof.
  destruct (MSIDH_Parameters_init lamb f p E0 A B) as [pr|e] eqn:H.
  - apply init_Ok_inv in H. destruct H as [G1 [G2 [HG [-> Hv]]]].
    split; [eauto|]. split; [assumption|]. apply verify_true_iff, Hv.
  - intros G1 G2 HG. rewrite (init_with_gens _ _ _ _ _ _ G1 G2 HG) in H.
    split.
    + intros Hinv. apply verify_true_iff in Hinv. rewrite Hinv in H.
      discriminate.
    + intros Hv. rewrite Hv in H. simpl in H. congruence.
Qed.

(** C9, on the code.  When the prime test fails for the cofactor the
    constructor is called with, the call raises, whatever the nested
    call with the next cofactor did: after the nested call returns, the
    body goes on with the composite [p]. *)
Lemma baby_composite_raises depth f :
  is_prime (baby_A * baby_B * f - 1) = false ->
  exists e, MSIDHpBaby_init depth f = Raise e.
Proof.
  intros Hp. destruct depth as [|d]; [simpl; eauto|].
  cbn [MSIDHpBaby_init]. rewrite Hp. cbn [negb bind].
  destruct (MSIDHpBaby_init d (f + 1)) as [pr'|e]; cbn [bind]; [|eauto].
  destruct (FiniteField (baby_A * baby_B * f - 1) 2) as [F|e]; cbn [bind];
    [|eauto].
  destruct (EllipticCurve F [1; 0]) as [E|e]; cbn [bind]; [|eauto].
  destruct (is_supersingular E); cbn [assert_ bind]; [|eauto].
  apply init_not_prime. assumption.
Qed.

Lemma baby_five_composite : (1153 | baby_A * baby_B * 5 - 1).
Proof.
  exists ((baby_A * baby_B * 5 - 1) / 1153). vm_compute. reflexivity.
Qed.

Lemma baby_five_not_prime : ~ prime (baby_A * baby_B * 5 - 1).
Proof.
  intros Hp. apply prime_alt in Hp. destruct Hp as [_ Hp].
  apply (Hp 1153); [|apply baby_five_composite].
  vm_compute. split; reflexivity.
Qed.

(** C9, at a failing input.  Called with the cofactor 5, for which
    [A * B * 5 - 1] is a multiple of 1153, the constructor raises at
    every recursion depth, although the next cofactor would do. *)
Theorem baby_retry_is_lost (depth : nat) :
  PrimeLaw -> exists e, MSIDHpBaby_init depth 5 = Raise e.
Proof.
  intros PLaw. apply baby_composite_raises.
  destruct (is_prime (baby_A * baby_B * 5 - 1)) eqn:E; [|reflexivity].
  exfalso. apply baby_five_not_prime. apply PLaw. assumption.
Qed.

End ConstructionClaims.

(** ** The claims about the parties *)

Section PartyClaims.
Context {BK : Backend}.

Lemma pairing_values_A_inv pr E Rp Sp p1 p2 :
  MSIDH_Party_A.pairing_values pr (E, Rp, Sp) = Ok (p1, p2) ->
  exists e, weil_pairing Rp Sp (A pr) = Ok p1
            /\ weil_pairing (PA pr) (QA pr) (A pr) = Ok e
            /\ p2 = fpow e (B pr).
Proof.
  unfold MSIDH_Party_A.pairing_values. intros H.
  apply bind_Ok_inv in H. destruct H as [v [Hv H]].
  apply bind_Ok_inv in H. destruct H as [e [He H]].
  injection H as <- <-. eauto.
Qed.

Lemma pairing_values_B_inv pr E Rp Sp p1 p2 :
  MSIDH_Party_B.pairing_values pr (E, Rp, Sp) = Ok (p1, p2) ->
  exists e, weil_pairing Rp Sp (B pr) = Ok p1
            /\ weil_pairing (PB pr) (QB pr) (B pr) = Ok e
            /\ p2 = fpow e (A pr).
Proof.
  unfold MSIDH_Party_B.pairing_values. intros H.
  apply bind_Ok_inv in H. destruct H as [v [Hv H]].
  apply bind_Ok_inv in H. destruct H as [e [He H]].
  injection H as <- <-. eauto.
Qed.

Lemma honest_run_B pr alpha a beta b :
  ModuleLaws -> PairingLaws -> IsogenyLaws ->
  WellFormed pr ->
  (alpha * alpha) mod (B pr) = 1 mod (B pr) ->
  let KA := padd (PA pr) (smul a (QA pr)) in
  let KB := padd (PB pr) (smul b (QB pr)) in
  exists phiA psi v,
    isogeny (E0 pr) KA Factored = Ok phiA
    /\ isogeny (codomain phiA) (isog_eval phiA KB) Factored = Ok psi
    /\ MSIDH_Party_A.compute_public_key pr (alpha, a)
       = Ok (codomain phiA, smul alpha (isog_eval phiA (PB pr)),
             smul alpha (isog_eval phiA (QB pr)))
    /\ MSIDH_Party_B.pairing_values pr
         (codomain phiA, smul alpha (isog_eval phiA (PB pr)),
          smul alpha (isog_eval phiA (QB pr))) = Ok (v, v)
    /\ MSIDH_Party_B.compute_shared_secret pr (beta, b)
         (codomain phiA, smul alpha (isog_eval phiA (PB pr)),
          smul alpha (isog_eval phiA (QB pr)))
       = Ok (j_invariant (codomain psi)).
Proof.
  intros ML PL IL W H.
  exact (honest_run_A ML PL IL (swap_roles pr) beta b alpha a
           (wellformed_swap pr W) H).
Qed.

(** C1, as the code has it.  Role A pairs the received points at its own
    degree [A] and compares with the pairing of its own basis
    [(PA, QA)] raised to the peer's degree [B]; role B is the mirror.
    For a constructed parameter set and any masks squaring to 1 modulo
    the peer's degree, whatever the scalars, the peer's public key
    passes: both pairings are defined and the two values are equal. *)
Theorem pairing_check_honest lamb0 f0 p0 curve degA degB pr alpha a beta b :
  ModuleLaws -> PairingLaws -> IsogenyLaws ->
  MSIDH_Parameters_init lamb0 f0 p0 curve degA degB = Ok pr ->
  (alpha * alpha) mod (B pr) = 1 mod (B pr) ->
  (beta * beta) mod (A pr) = 1 mod (A pr) ->
  (exists E Rp Sp e,
      MSIDH_Party_B.compute_public_key pr (beta, b) = Ok (E, Rp, Sp)
      /\ weil_pairing (PA pr) (QA pr) (A pr) = Ok e
      /\ weil_pairing Rp Sp (A pr) = Ok (fpow e (B pr))
      /\ MSIDH_Party_A.pairing_values pr (E, Rp, Sp)
         = Ok (fpow e (B pr), fpow e (B pr)))
  /\ (exists E Rp Sp e,
         MSIDH_Party_A.compute_public_key pr (alpha, a) = Ok (E, Rp, Sp)
         /\ weil_pairing (PB pr) (QB pr) (B pr) = Ok e
         /\ weil_pairing Rp Sp (B pr) = Ok (fpow e (A pr))
         /\ MSIDH_Party_B.pairing_values pr (E, Rp, Sp)
            = Ok (fpow e (A pr), fpow e (A pr))).
Proof.
  intros ML PL IL Hinit Ha Hb.
  assert (W := init_wellformed ML _ _ _ _ _ _ _ Hinit).
  split.
  - destruct (honest_run_A ML PL IL pr alpha a beta b W Hb)
      as [phi [psi [v [_ [_ [Hpk [Hpv _]]]]]]].
    destruct (pairing_values_A_inv _ _ _ _ _ _ Hpv) as [e [H1 [H2 ->]]].
    do 3 eexists. exists e. split; [exact Hpk|]. auto.
  - destruct (honest_run_B pr alpha a beta b ML PL IL W Ha)
      as [phi [psi [v [_ [_ [Hpk [Hpv _]]]]]]].
    destruct (pairing_values_B_inv _ _ _ _ _ _ Hpv) as [e [H1 [H2 ->]]].
    do 3 eexists. exists e. split; [exact Hpk|]. auto.
Qed.


(** C2.  For a constructed parameter set and private keys that runs of
    [generate_private_key] return, both public keys are derived, each
    party accepts the other's, and the two calls of
    [compute_shared_secret] return the same j-invariant.  The four
    functions are functions of the keys alone, so a run with the same
    random choices gives the same values. *)
Theorem shared_secrets_agree lamb0 f0 p0 curve degA degB pr skA skB :
  ModuleLaws -> PairingLaws -> IsogenyLaws ->
  MSIDH_Parameters_init lamb0 f0 p0 curve degA degB = Ok pr ->
  In (Ok skA) (MSIDH_Party_A.generate_private_key pr) ->
  In (Ok skB) (MSIDH_Party_B.generate_private_key pr) ->
  exists pkA pkB j,
    MSIDH_Party_A.compute_public_key pr skA = Ok pkA
    /\ MSIDH_Party_B.compute_public_key pr skB = Ok pkB
    /\ MSIDH_Party_A.compute_shared_secret pr skA pkB = Ok j
    /\ MSIDH_Party_B.compute_shared_secret pr skB pkA = Ok j.
Proof.
  intros ML PL IL Hinit HA HB.
  destruct skA as [alpha a]. destruct skB as [beta b].
  apply generated_key_A in HA. destruct HA as [Ha _].
  apply generated_key_B in HB. destruct HB as [Hb _].
  assert (W := init_wellformed ML _ _ _ _ _ _ _ Hinit).
  destruct (honest_run_A ML PL IL pr alpha a beta b W Hb)
    as [phiB [psi1 [v1 [HphiB [Hpsi1 [HpkB [_ HsA]]]]]]].
  destruct (honest_run_B pr alpha a beta b ML PL IL W Ha)
    as [phiA [psi2 [v2 [HphiA [Hpsi2 [HpkA [_ HsB]]]]]]].
  do 2 eexists. exists (j_invariant (codomain psi1)).
  split; [exact HpkA|]. split; [exact HpkB|]. split; [exact HsA|].
  rewrite HsB. f_equal. symmetry.
  destruct W.
  eapply (isogeny_commute IL (E0 pr) _ _ (B pr) (A pr));
    [exact HphiB | exact HphiA | exact Hpsi1 | exact Hpsi2 | | | ].
  - apply (kernel_annihilated ML); assumption.
  - apply (kernel_annihilated ML); assumption.
  - rewrite Z.gcd_comm. assumption.
Qed.

(** C4.  For a constructed parameter set and any private key
    [(mask, scalar)], the isogeny requested from the base curve with the
    factored algorithm and kernel generator [P + scalar * Q] over the
    own basis exists, and [compute_public_key] returns its codomain with
    the images of the peer's two basis points, each multiplied by
    [mask]; this for both roles. *)
Theorem public_key_shape lamb0 f0 p0 curve degA degB pr mask scalar :
  ModuleLaws -> IsogenyLaws ->
  MSIDH_Parameters_init lamb0 f0 p0 curve degA degB = Ok pr ->
  (exists phi,
      isogeny (E0 pr) (padd (PA pr) (smul scalar (QA pr))) Factored = Ok phi
      /\ MSIDH_Party_A.compute_public_key pr (mask, scalar)
         = Ok (codomain phi, smul mask (isog_eval phi (PB pr)),
               smul mask (isog_eval phi (QB pr))))
  /\ (exists phi,
         isogeny (E0 pr) (padd (PB pr) (smul scalar (QB pr))) Factored = Ok phi
         /\ MSIDH_Party_B.compute_public_key pr (mask, scalar)
            = Ok (codomain phi, smul mask (isog_eval phi (PA pr)),
                  smul mask (isog_eval phi (QA pr)))).
Proof.
  intros ML IL Hinit.
  assert (W := init_wellformed ML _ _ _ _ _ _ _ Hinit). destruct W.
  split.
  - destruct (isogeny_defined IL (E0 pr)
                (padd (PA pr) (smul scalar (QA pr))) Factored) as [phi Hphi].
    { rewrite (curve_of_padd ML). assumption. }
    exists phi. split; [assumption|].
    unfold MSIDH_Party_A.compute_public_key. simpl. rewrite Hphi. reflexivity.
  - destruct (isogeny_defined IL (E0 pr)
                (padd (PB pr) (smul scalar (QB pr))) Factored) as [phi Hphi].
    { rewrite (curve_of_padd ML). assumption. }
    exists phi. split; [assumption|].
    unfold MSIDH_Party_B.compute_public_key. simpl. rewrite Hphi. reflexivity.
Qed.

(** C8.  In both roles: when the two pairing values are computed and
    differ, [compute_shared_secret] raises the assertion error "Weil
    pairing values do not match", whatever the isogeny construction
    would have done with the key; and whenever it returns a secret, the
    two values were computed and compared equal. *)
Theorem mismatch_aborts (pr : MSIDH_Parameters) (sk : private_key)
  (pk : public_key) :
  (forall p1 p2,
      MSIDH_Party_A.pairing_values pr pk = Ok (p1, p2) ->
      fld_eqb p1 p2 = false ->
      MSIDH_Party_A.compute_shared_secret pr sk pk
      = Raise (AssertionError "Weil pairing values do not match"))
  /\ (forall p1 p2,
         MSIDH_Party_B.pairing_values pr pk = Ok (p1, p2) ->
         fld_eqb p1 p2 = false ->
         MSIDH_Party_B.compute_shared_secret pr sk pk
         = Raise (AssertionError "Weil pairing values do not match"))
  /\ (forall j,
         MSIDH_Party_A.compute_shared_secret pr sk pk = Ok j ->
         exists p1 p2, MSIDH_Party_A.pairing_values pr pk = Ok (p1, p2)
                       /\ fld_eqb p1 p2 = true)
  /\ (forall j,
         MSIDH_Party_B.compute_shared_secret pr sk pk = Ok j ->
         exists p1 p2, MSIDH_Party_B.pairing_values pr pk = Ok (p1, p2)
                       /\ fld_eqb p1 p2 = true).
Proof.
  repeat split.
  - intros p1 p2 Hpv Hne. unfold MSIDH_Party_A.compute_shared_secret.
    rewrite Hpv. simpl. rewrite Hne. reflexivity.
  - intros p1 p2 Hpv Hne. unfold MSIDH_Party_B.compute_shared_secret.
    rewrite Hpv. simpl. rewrite Hne. reflexivity.
  - intros j H. unfold MSIDH_Party_A.compute_shared_secret in H.
    apply bind_Ok_inv in H. destruct H as [[p1 p2] [Hpv H]].
    apply bind_Ok_inv in H. destruct H as [[] [Ha _]].
    apply assert_Ok_inv in Ha. eauto.
  - intros j H. unfold MSIDH_Party_B.compute_shared_secret in H.
    apply bind_Ok_inv in H. destruct H as [[p1 p2] [Hpv H]].
    apply bind_Ok_inv in H. destruct H as [[] [Ha _]].
    apply assert_Ok_inv in Ha. eauto.
Qed.

End PartyClaims.

(** ** The claims on the small backend *)

Module ToyRuns.
Import Toy.

Ltac pick_member := vm_compute; repeat (first [left; reflexivity | right]).

Lemma params_constructed : MSIDH_Parameters_init 10 8 9239 1 15 77 = Ok Toy.pr.
Proof.
  apply (@init_verified Toy.backend); [reflexivity|].
  vm_compute. reflexivity.
Qed.

Lemma skA_generated : In (Ok skA) (MSIDH_Party_A.generate_private_key Toy.pr).
Proof. pick_member. Qed.

Lemma skB_generated : In (Ok skB) (MSIDH_Party_B.generate_private_key Toy.pr).
Proof. pick_member. Qed.

(** C1, refuted as worded.  On the toy parameter set, the public key
    party B derives honestly passes the check party A runs (degree [A],
    basis [(PA, QA)], exponent [B]); the check the claim words for role A
    (degree [B], basis [(PB, QB)], exponent [A]) cannot be evaluated on
    it, since the received points are not of [B]-torsion. *)
Lemma worded_check_rejects_honest_key :
  exists pk,
    MSIDH_Party_B.compute_public_key Toy.pr skB = Ok pk
    /\ (exists v, MSIDH_Party_A.pairing_values Toy.pr pk = Ok (v, v))
    /\ MSIDH_Party_A.spec_pairing_values Toy.pr pk
       = Raise (BackendError "points must both be n-torsion").
Proof.
  eexists. split; [vm_compute; reflexivity|]. split.
  - eexists. vm_compute. reflexivity.
  - vm_compute. reflexivity.
Qed.

Lemma pairing_check_honest_witness :
  (exists E Rp Sp e,
      MSIDH_Party_B.compute_public_key Toy.pr skB = Ok (E, Rp, Sp)
      /\ weil_pairing (PA Toy.pr) (QA Toy.pr) (A Toy.pr) = Ok e
      /\ weil_pairing Rp Sp (A Toy.pr) = Ok (fpow e (B Toy.pr))
      /\ MSIDH_Party_A.pairing_values Toy.pr (E, Rp, Sp)
         = Ok (fpow e (B Toy.pr), fpow e (B Toy.pr)))
  /\ (exists E Rp Sp e,
         MSIDH_Party_A.compute_public_key Toy.pr skA = Ok (E, Rp, Sp)
         /\ weil_pairing (PB Toy.pr) (QB Toy.pr) (B Toy.pr) = Ok e
         /\ weil_pairing Rp Sp (B Toy.pr) = Ok (fpow e (A Toy.pr))
         /\ MSIDH_Party_B.pairing_values Toy.pr (E, Rp, Sp)
            = Ok (fpow e (A Toy.pr), fpow e (A Toy.pr))).
Proof.
  apply (@pairing_check_honest Toy.backend 10 8 9239 1 15 77 Toy.pr 34 7 4 5
           ToyFacts.toy_module_laws ToyFacts.toy_pairing_laws
           ToyFacts.toy_isogeny_laws).
  - exact params_constructed.
  - vm_compute. reflexivity.
  - vm_compute. reflexivity.
Defined.

Lemma shared_secrets_agree_witness :
  exists pkA pkB j,
    MSIDH_Party_A.compute_public_key Toy.pr skA = Ok pkA
    /\ MSIDH_Party_B.compute_public_key Toy.pr skB = Ok pkB
    /\ MSIDH_Party_A.compute_shared_secret Toy.pr skA pkB = Ok j
    /\ MSIDH_Party_B.compute_shared_secret Toy.pr skB pkA = Ok j.
Proof.
  apply (@shared_secrets_agree Toy.backend 10 8 9239 1 15 77 Toy.pr skA skB
           ToyFacts.toy_module_laws ToyFacts.toy_pairing_laws
           ToyFacts.toy_isogeny_laws).
  - exact params_constructed.
  - pick_member.
  - pick_member.
Defined.

Lemma mewtwo_uniform_witness :
  exists l, @mewtwo Toy.backend 15 = map Ok l /\ NoDup l /\
            forall x, In x l <-> (0 <= x < 15 /\ (x * x) mod 15 = 1 mod 15).
Proof.
  apply (@mewtwo_uniform_on_roots Toy.backend 15 ToyFacts.toy_sqrt_law).
  reflexivity.
Defined.

Lemma public_key_shape_witness :
  (exists phi,
      isogeny (E0 Toy.pr) (padd (PA Toy.pr) (smul 7 (QA Toy.pr))) Factored
      = Ok phi
      /\ MSIDH_Party_A.compute_public_key Toy.pr (34, 7)
         = Ok (codomain phi, smul 34 (isog_eval phi (PB Toy.pr)),
               smul 34 (isog_eval phi (QB Toy.pr))))
  /\ (exists phi,
         isogeny (E0 Toy.pr) (padd (PB Toy.pr) (smul 7 (QB Toy.pr))) Factored
         = Ok phi
         /\ MSIDH_Party_B.compute_public_key Toy.pr (34, 7)
            = Ok (codomain phi, smul 34 (isog_eval phi (PA Toy.pr)),
                  smul 34 (isog_eval phi (QA Toy.pr)))).
Proof.
  apply (@public_key_shape Toy.backend 10 8 9239 1 15 77 Toy.pr 34 7
           ToyFacts.toy_module_laws ToyFacts.toy_isogeny_laws).
  exact params_constructed.
Defined.

Lemma generate_private_key_witness :
  (exists masks,
      NoDup masks
      /\ (forall x, In x masks <-> (0 <= x < 77 /\ (x * x) mod 77 = 1 mod 77))
      /\ MSIDH_Party_A.generate_private_key Toy.pr
         = map Ok (list_prod masks (range 15)))
  /\ (exists masks,
         NoDup masks
         /\ (forall x, In x masks <->
                       (0 <= x < 15 /\ (x * x) mod 15 = 1 mod 15))
         /\ MSIDH_Party_B.generate_private_key Toy.pr
            = map Ok (list_prod masks (range 77))).
Proof.
  apply (@generate_private_key_distribution Toy.backend Toy.pr
           ToyFacts.toy_sqrt_law); reflexivity.
Defined.

Lemma bases_scaled_witness :
  exists G1 G2,
    gens 1 = [G1; G2]
    /\ (PA Toy.pr = smul 8 (smul 77 G1) /\ PA Toy.pr = smul (77 * 8) G1)
    /\ (QA Toy.pr = smul 8 (smul 77 G2) /\ QA Toy.pr = smul (77 * 8) G2)
    /\ (PB Toy.pr = smul 8 (smul 15 G1) /\ PB Toy.pr = smul (15 * 8) G1)
    /\ (QB Toy.pr = smul 8 (smul 15 G2) /\ QB Toy.pr = smul (15 * 8) G2).
Proof.
  apply (@bases_scaled_from_generators Toy.backend 10 8 9239 1 15 77 Toy.pr
           ToyFacts.toy_module_laws).
  exact params_constructed.
Defined.

(** C7, refuted as worded.  On the toy backend, a parameter set whose
    degrees 30 and 22 share a factor and one whose modulus 4619 is
    composite are refused with the same exception, so no reading of the
    exception tells the failed primality test from the failed
    coprimality test. *)
Lemma exception_names_no_invariant :
  ~ exists failed, @error_lists_failures Toy.backend failed.
Proof.
  intros [failed H].
  assert (H1 : MSIDH_Parameters_init 10 14 9239 1 30 22
               = Raise (Exception "Invalid parameters")).
  { eapply (@init_refused Toy.backend); [reflexivity|].
    vm_compute. reflexivity. }
  assert (H2 : MSIDH_Parameters_init 10 4 4619 1 15 77
               = Raise (Exception "Invalid parameters")).
  { eapply (@init_refused Toy.backend); [reflexivity|].
    vm_compute. reflexivity. }
  apply H in H1. apply H in H2.
  destruct H1 as [P1 _]. destruct H2 as [P2 _].
  assert (In 2%nat (failed (Exception "Invalid parameters"))).
  { apply P2. vm_compute. reflexivity. }
  apply P1 in H0. vm_compute in H0. discriminate.
Qed.

(** A tampered key is refused by party A with the assertion error. *)
Lemma mismatch_aborts_witness :
  MSIDH_Party_A.compute_shared_secret Toy.pr skA
    (tampered (1 * 77, t_smul 4 (t_eval {| idom := 1; ideg := 77 |} (PA Toy.pr)),
               t_smul 4 (t_eval {| idom := 1; ideg := 77 |} (QA Toy.pr))))
  = Raise (AssertionError "Weil pairing values do not match").
Proof.
  apply (proj1 (@mismatch_aborts Toy.backend Toy.pr skA _) 2464 1232).
  - vm_compute. reflexivity.
  - vm_compute. reflexivity.
Defined.

Lemma baby_retry_is_lost_witness :
  exists e, @MSIDHpBaby_init Toy.backend 3 5 = Raise e.
Proof.
  apply (@baby_retry_is_lost Toy.backend 3 ToyFacts.toy_prime_law).
Defined.

End ToyRuns.

(** * Further properties of the code *)

(** ** Validation *)

Section ValidationProperties.
Context {BK : Backend}.

(** X1.  The first three checks decide before any primitive that can
    raise is called: a parameter set whose curve is not supersingular,
    whose modulus fails the prime test or is not [A * B * f - 1] gets
    the answer [False], whatever [math.sqrt] and [xy()] would do. *)
Theorem early_checks_answer_false (pr : MSIDH_Parameters) :
  is_supersingular (E0 pr) = false
  \/ is_prime (p pr) = false
  \/ p pr <> A pr * B pr * f pr - 1 ->
  verify_parameters pr = Ok false.
Proof.
  intros H. unfold verify_parameters.
  destruct (is_supersingular (E0 pr)); simpl; [|reflexivity].
  destruct (is_prime (p pr)); simpl; [|reflexivity].
  destruct (p pr =? A pr * B pr * f pr - 1) eqn:E; simpl; [|reflexivity].
  apply Z.eqb_eq in E.
  destruct H as [H | [H | H]]; [discriminate | discriminate | contradiction].
Qed.

(** X2.  Validation raises only what [math.sqrt] raised on the modulus
    or what [xy()] raised on one of the four basis points. *)
Theorem validation_raises_only_from (pr : MSIDH_Parameters) (e : exn) :
  verify_parameters pr = Raise e ->
  math_sqrt (p pr) = Raise e
  \/ xy (PA pr) = Raise e \/ xy (QA pr) = Raise e
  \/ xy (PB pr) = Raise e \/ xy (QB pr) = Raise e.
Proof.
  unfold verify_parameters, on_curve_check. intros H.
  destruct (is_supersingular (E0 pr)); simpl in H; [|discriminate].
  destruct (is_prime (p pr)); simpl in H; [|discriminate].
  destruct (p pr =? A pr * B pr * f pr - 1); simpl in H; [|discriminate].
  destruct (math_sqrt (p pr)) as [s|e1]; simpl in H;
    [|injection H as <-; auto].
  destruct (_ && _ && (_ && _)); simpl in H; [|discriminate].
  destruct (Z.gcd (A pr) (B pr) =? 1); simpl in H; [|discriminate].
  destruct (xy (PA pr)) as [[x1 y1]|e1]; simpl in H;
    [|injection H as <-; auto].
  destruct (xy (QA pr)) as [[x2 y2]|e1]; simpl in H;
    [|injection H as <-; auto].
  destruct (xy (PB pr)) as [[x3 y3]|e1]; simpl in H;
    [|injection H as <-; auto 6].
  destruct (xy (QB pr)) as [[x4 y4]|e1]; simpl in H;
    [|injection H as <-; auto 6].
  exfalso.
  destruct (negb _); [discriminate|].
  destruct (negb _); [discriminate|].
  destruct (negb _); [discriminate|].
  destruct (_ || _); discriminate.
Qed.

Lemma passed_on_curve_not_neutral E P :
  XyLaw -> on_curve_check E P = Ok true -> point_eqb P (infinity E) = false.
Proof.
  intros XL H. destruct (point_eqb P (infinity E)) eqn:Eq; [|reflexivity].
  destruct (XL E P Eq) as [e He]. unfold on_curve_check in H.
  rewrite He in H. discriminate.
Qed.

(** X3.  When [xy()] raises on the neutral point, the last check
    ("points are not trivial") never decides: every answer [False] of
    validation comes from one of the first eight checks. *)
Theorem triviality_check_never_decides (pr : MSIDH_Parameters) :
  XyLaw ->
  verify_parameters pr = Ok false ->
  refused_by_first_eight pr.
Proof.
  intros XL H. unfold refused_by_first_eight.
  destruct (is_supersingular (E0 pr)) eqn:H1; [|auto].
  destruct (is_prime (p pr)) eqn:H2; [|auto].
  destruct (Z.eq_dec (p pr) (A pr * B pr * f pr - 1)) as [H3|H3]; [|auto].
  right. right. right.
  destruct (math_sqrt (p pr)) as [s|e] eqn:Hs.
  2:{ left. intros [s [Hs' _]]. congruence. }
  destruct (float_le_int (float_mul s float_10e_4) (A pr)) eqn:F1.
  2:{ left. intros [s' [Hs' [F _]]]. congruence. }
  destruct (int_le_float (A pr) (float_mul s float_10e4)) eqn:F2.
  2:{ left. intros [s' [Hs' [_ [F _]]]]. congruence. }
  destruct (float_le_int (float_mul s float_10e_4) (B pr)) eqn:F3.
  2:{ left. intros [s' [Hs' [_ [_ [F _]]]]]. congruence. }
  destruct (int_le_float (B pr) (float_mul s float_10e4)) eqn:F4.
  2:{ left. intros [s' [Hs' [_ [_ [_ F]]]]]. congruence. }
  right.
  destruct (Z.eq_dec (Z.gcd (A pr) (B pr)) 1) as [H5|H5]; [|auto].
  right.
  destruct (on_curve_check_cases (E0 pr) (PA pr)) as [C1|[C1|[e C1]]];
    [|auto|].
  2:{ exfalso. unfold verify_parameters in H.
      rewrite H1, H2 in H. simpl in H.
      apply Z.eqb_eq in H3, H5. rewrite H3, Hs in H. simpl in H.
      rewrite F1, F2, F3, F4, H5 in H. simpl in H. rewrite C1 in H.
      discriminate. }
  destruct (on_curve_check_cases (E0 pr) (QA pr)) as [C2|[C2|[e C2]]];
    [|auto|].
  2:{ exfalso. unfold verify_parameters in H.
      rewrite H1, H2 in H. simpl in H.
      apply Z.eqb_eq in H3, H5. rewrite H3, Hs in H. simpl in H.
      rewrite F1, F2, F3, F4, H5 in H. simpl in H. rewrite C1, C2 in H.
      discriminate. }
  destruct (on_curve_check_cases (E0 pr) (PB pr)) as [C3|[C3|[e C3]]];
    [|auto 6|].
  2:{ exfalso. unfold verify_parameters in H.
      rewrite H1, H2 in H. simpl in H.
      apply Z.eqb_eq in H3, H5. rewrite H3, Hs in H. simpl in H.
      rewrite F1, F2, F3, F4, H5 in H. simpl in H. rewrite C1, C2, C3 in H.
      discriminate. }
  destruct (on_curve_check_cases (E0 pr) (QB pr)) as [C4|[C4|[e C4]]];
    [|auto 6|].
  2:{ exfalso. unfold verify_parameters in H.
      rewrite H1, H2 in H. simpl in H.
      apply Z.eqb_eq in H3, H5. rewrite H3, Hs in H. simpl in H.
      rewrite F1, F2, F3, F4, H5 in H. simpl in H.
      rewrite C1, C2, C3, C4 in H. discriminate. }
  right.
  destruct (Z.eq_dec (point_order (PA pr)) (A pr)) as [O1|O1];
    [|left; tauto].
  destruct (Z.eq_dec (point_order (QA pr)) (A pr)) as [O2|O2];
    [|left; tauto].
  destruct (Z.eq_dec (point_order (PB pr)) (B pr)) as [O3|O3];
    [|left; tauto].
  destruct (Z.eq_dec (point_order (QB pr)) (B pr)) as [O4|O4];
    [|left; tauto].
  right.
  destruct (point_eqb (PA pr) (QA pr)) eqn:D1; [auto|].
  destruct (point_eqb (PB pr) (QB pr)) eqn:D2; [auto|].
  exfalso.
  assert (Hv : verify_parameters pr = Ok true).
  { apply verify_true_iff. split; auto.
    - exists s. auto.
    - repeat split; apply passed_on_curve_not_neutral; assumption. }
  congruence.
Qed.

(** X4.  A curve that does not report exactly two generators cannot be
    used: construction raises [ValueError] while unpacking, before any
    check is run. *)
Theorem generators_must_be_two lamb0 f0 p0 curve degA degB :
  List.length (gens curve) <> 2%nat ->
  MSIDH_Parameters_init lamb0 f0 p0 curve degA degB = Raise ValueError.
Proof.
  intros H. unfold MSIDH_Parameters_init.
  destruct (gens curve) as [|G1 [|G2 [|G3 l]]]; simpl in *;
    try reflexivity.
  contradiction.
Qed.

End ValidationProperties.

(** ** The bases and the keys *)

Section KeyProperties.
Context {BK : Backend}.

Lemma constructed_bases_structure_aux :
  ModuleLaws ->
  forall lamb0 f0 p0 curve degA degB pr,
  MSIDH_Parameters_init lamb0 f0 p0 curve degA degB = Ok pr ->
  (curve_of (PA pr) = E0 pr /\ curve_of (QA pr) = E0 pr
   /\ curve_of (PB pr) = E0 pr /\ curve_of (QB pr) = E0 pr)
  /\ (smul (A pr) (PA pr) = infinity (E0 pr)
      /\ smul (A pr) (QA pr) = infinity (E0 pr)
      /\ smul (B pr) (PB pr) = infinity (E0 pr)
      /\ smul (B pr) (QB pr) = infinity (E0 pr)).
Proof.
  intros ML lamb0 f0 p0 curve degA degB pr H.
  destruct (init_wellformed ML _ _ _ _ _ _ _ H).
  split; [auto|].
  rewrite <- wf_order_PA0 at 1. rewrite <- wf_order_QA0 at 1.
  rewrite <- wf_order_PB0 at 1. rewrite <- wf_order_QB0 at 1.
  rewrite !(smul_order ML).
  rewrite wf_curve_PA0, wf_curve_QA0, wf_curve_PB0, wf_curve_QB0. auto.
Qed.

(** X5.  In a constructed parameter set the four basis points lie on
    the base curve, [A] annihilates [PA] and [QA], [B] annihilates [PB]
    and [QB], and each pair is independent, although validation tests
    none of the last. *)
Theorem constructed_bases_structure lamb0 f0 p0 curve degA degB pr :
  ModuleLaws ->
  MSIDH_Parameters_init lamb0 f0 p0 curve degA degB = Ok pr ->
  (curve_of (PA pr) = E0 pr /\ curve_of (QA pr) = E0 pr
   /\ curve_of (PB pr) = E0 pr /\ curve_of (QB pr) = E0 pr)
  /\ (smul (A pr) (PA pr) = infinity (E0 pr)
      /\ smul (A pr) (QA pr) = infinity (E0 pr)
      /\ smul (B pr) (PB pr) = infinity (E0 pr)
      /\ smul (B pr) (QB pr) = infinity (E0 pr))
  /\ independent (E0 pr) (PA pr) (QA pr)
  /\ independent (E0 pr) (PB pr) (QB pr).
Proof.
  intros ML H.
  destruct (constructed_bases_structure_aux ML _ _ _ _ _ _ _ H) as [C T].
  destruct (init_wellformed ML _ _ _ _ _ _ _ H). auto.
Qed.

(** X6.  Whatever the scalar, the kernel generator of a party has the
    exact order of that party's degree: [PA + a * QA] has order [A] and
    [PB + b * QB] has order [B]. *)
Theorem kernel_generator_order lamb0 f0 p0 curve degA degB pr a b :
  ModuleLaws ->
  MSIDH_Parameters_init lamb0 f0 p0 curve degA degB = Ok pr ->
  point_order (padd (PA pr) (smul a (QA pr))) = A pr
  /\ point_order (padd (PB pr) (smul b (QB pr))) = B pr.
Proof.
  intros ML H. destruct (init_wellformed ML _ _ _ _ _ _ _ H).
  split; apply (kernel_order ML (E0 pr)); assumption.
Qed.

Lemma public_point_torsion E K phi n m P :
  ModuleLaws -> IsogenyLaws ->
  isogeny E K Factored = Ok phi ->
  curve_of P = E -> smul n P = infinity E ->
  curve_of (smul m (isog_eval phi P)) = codomain phi
  /\ smul n (smul m (isog_eval phi P)) = infinity (codomain phi).
Proof.
  intros ML IL Hphi CP TP. split.
  - rewrite (curve_of_smul ML). apply (curve_of_eval IL _ _ _ _ _ Hphi CP).
  - rewrite (smul_comm ML).
    rewrite <- (eval_smul IL _ _ _ _ _ _ Hphi CP), TP.
    rewrite (eval_inf IL _ _ _ _ Hphi). apply (smul_inf ML).
Qed.

(** X7.  The two points of a public key lie on the curve published with
    them and are annihilated by the peer's degree: [B] for a key of
    party A, [A] for a key of party B. *)
Theorem public_key_points_torsion lamb0 f0 p0 curve degA degB pr sk E Rp Sp :
  ModuleLaws -> IsogenyLaws ->
  MSIDH_Parameters_init lamb0 f0 p0 curve degA degB = Ok pr ->
  (MSIDH_Party_A.compute_public_key pr sk = Ok (E, Rp, Sp) ->
   (curve_of Rp = E /\ curve_of Sp = E)
   /\ smul (B pr) Rp = infinity E /\ smul (B pr) Sp = infinity E)
  /\ (MSIDH_Party_B.compute_public_key pr sk = Ok (E, Rp, Sp) ->
      (curve_of Rp = E /\ curve_of Sp = E)
      /\ smul (A pr) Rp = infinity E /\ smul (A pr) Sp = infinity E).
Proof.
  intros ML IL H.
  destruct (constructed_bases_structure_aux ML _ _ _ _ _ _ _ H)
    as [[C1 [C2 [C3 C4]]] [T1 [T2 [T3 T4]]]].
  split; intros Hpk.
  - unfold MSIDH_Party_A.compute_public_key in Hpk.
    apply bind_Ok_inv in Hpk. destruct Hpk as [phi [Hphi Hpk]].
    injection Hpk as <- <- <-.
    destruct (public_point_torsion _ _ _ (B pr) (fst sk) _ ML IL Hphi C3 T3).
    destruct (public_point_torsion _ _ _ (B pr) (fst sk) _ ML IL Hphi C4 T4).
    auto.
  - unfold MSIDH_Party_B.compute_public_key in Hpk.
    apply bind_Ok_inv in Hpk. destruct Hpk as [phi [Hphi Hpk]].
    injection Hpk as <- <- <-.
    destruct (public_point_torsion _ _ _ (A pr) (fst sk) _ ML IL Hphi C1 T1).
    destruct (public_point_torsion _ _ _ (A pr) (fst sk) _ ML IL Hphi C2 T2).
    auto.
Qed.

End KeyProperties.

(** ** The exchange *)

Section ExchangeProperties.
Context {BK : Backend}.

(** X8.  The secret does not depend on the masks.  Party A with scalar
    [a] derives the same j-invariant from the public keys party B makes
    with the same scalar [b] and two masks squaring to 1 modulo [A], and
    party A's own mask plays no part. *)
Theorem secret_independent_of_masks
  lamb0 f0 p0 curve degA degB pr alpha alpha' a beta beta' b :
  ModuleLaws -> PairingLaws -> IsogenyLaws ->
  MSIDH_Parameters_init lamb0 f0 p0 curve degA degB = Ok pr ->
  (beta * beta) mod (A pr) = 1 mod (A pr) ->
  (beta' * beta') mod (A pr) = 1 mod (A pr) ->
  exists pk pk' j,
    MSIDH_Party_B.compute_public_key pr (beta, b) = Ok pk
    /\ MSIDH_Party_B.compute_public_key pr (beta', b) = Ok pk'
    /\ MSIDH_Party_A.compute_shared_secret pr (alpha, a) pk = Ok j
    /\ MSIDH_Party_A.compute_shared_secret pr (alpha', a) pk' = Ok j.
Proof.
  intros ML PL IL Hinit Hb Hb'.
  assert (W := init_wellformed ML _ _ _ _ _ _ _ Hinit).
  destruct (honest_run_A ML PL IL pr alpha a beta b W Hb)
    as [phi [psi [v [Hphi [Hpsi [Hpk [_ Hs]]]]]]].
  destruct (honest_run_A ML PL IL pr alpha' a beta' b W Hb')
    as [phi' [psi' [v' [Hphi' [Hpsi' [Hpk' [_ Hs']]]]]]].
  assert (phi' = phi) by congruence. subst phi'.
  assert (psi' = psi) by congruence. subst psi'.
  do 2 eexists. exists (j_invariant (codomain psi)). eauto.
Qed.

(** X9.  A secret is returned only for received points that lie on one
    curve and are annihilated by the own degree ([A] for party A, [B]
    for party B), when the pairing answers on torsion points only. *)
Theorem accepted_key_is_torsion (pr : MSIDH_Parameters) (sk : private_key)
  (E : Curve) (Rp Sp : Point) (j : Fld) :
  WeilDomainLaw ->
  (MSIDH_Party_A.compute_shared_secret pr sk (E, Rp, Sp) = Ok j ->
   curve_of Rp = curve_of Sp
   /\ smul (A pr) Rp = infinity (curve_of Rp)
   /\ smul (A pr) Sp = infinity (curve_of Sp))
  /\ (MSIDH_Party_B.compute_shared_secret pr sk (E, Rp, Sp) = Ok j ->
      curve_of Rp = curve_of Sp
      /\ smul (B pr) Rp = infinity (curve_of Rp)
      /\ smul (B pr) Sp = infinity (curve_of Sp)).
Proof.
  intros WL. split; intros H.
  - unfold MSIDH_Party_A.compute_shared_secret in H.
    apply bind_Ok_inv in H. destruct H as [[p1 p2] [Hpv _]].
    apply pairing_values_A_inv in Hpv. destruct Hpv as [e [H1 _]].
    apply (WL _ _ _ _ H1).
  - unfold MSIDH_Party_B.compute_shared_secret in H.
    apply bind_Ok_inv in H. destruct H as [[p1 p2] [Hpv _]].
    apply pairing_values_B_inv in Hpv. destruct Hpv as [e [H1 _]].
    apply (WL _ _ _ _ H1).
Qed.

Lemma swap_roles_involutive pr : swap_roles (swap_roles pr) = pr.
Proof. destruct pr. reflexivity. Qed.

(** X10.  Party B is party A seen from the other side: each method of
    [MSIDH_Party_B] is the method of [MSIDH_Party_A] on the parameter
    set with the degrees and the bases exchanged, and exchanging twice
    gives the parameter set back. *)
Theorem party_B_mirrors_party_A (pr : MSIDH_Parameters) (sk : private_key)
  (pk : public_key) :
  MSIDH_Party_B.generate_private_key pr
  = MSIDH_Party_A.generate_private_key (swap_roles pr)
  /\ MSIDH_Party_B.compute_public_key pr sk
     = MSIDH_Party_A.compute_public_key (swap_roles pr) sk
  /\ MSIDH_Party_B.compute_shared_secret pr sk pk
     = MSIDH_Party_A.compute_shared_secret (swap_roles pr) sk pk
  /\ MSIDH_Party_A.compute_shared_secret pr sk pk
     = MSIDH_Party_B.compute_shared_secret (swap_roles pr) sk pk
  /\ swap_roles (swap_roles pr) = pr.
Proof.
  repeat split. apply swap_roles_involutive.
Qed.

End ExchangeProperties.

(** ** Sampling and the toy generator *)

Section SamplingProperties.
Context {BK : Backend}.

Lemma In_Raise_dbind {T U : Type} (d : Dist T) (k : T -> Dist U) (e : exn) :
  In (Raise e) (dbind d k) <->
  In (Raise e) d \/ exists v, In (Ok v) d /\ In (Raise e) (k v).
Proof.
  unfold dbind. rewrite in_flat_map. split.
  - intros [[v | e'] [Hin Hu]].
    + right. eauto.
    + destruct Hu as [Hu | []]. injection Hu as ->. auto.
  - intros [Hin | [v [Hin Hu]]].
    + exists (Raise e). simpl. auto.
    + exists (Ok v). auto.
Qed.

Lemma index_in_range {T : Type} (l : list T) (r : Z) :
  0 <= r < Z.of_nat (List.length l) ->
  exists x, index l r = Ok x /\ In x l.
Proof.
  intros Hr. unfold index.
  destruct (nth_error l (Z.to_nat r)) as [x|] eqn:E.
  - exists x. split; [reflexivity|]. eapply nth_error_In. eassumption.
  - apply nth_error_None in E. lia.
Qed.

(** X11.  What [mewtwo] can raise: the exception of the backend's
    enumeration, [ValueError] when the enumeration is empty, or the
    assertion error when an enumerated value does not square to 1; an
    index error never. *)
Theorem mewtwo_failures (b : Z) (e : exn) :
  In (Raise e) (mewtwo b) ->
  sqrt_all b = Raise e
  \/ (sqrt_all b = Ok [] /\ e = ValueError)
  \/ (exists sqs x, sqrt_all b = Ok sqs /\ In x sqs
                    /\ (x * x) mod b <> 1 mod b /\ e = AssertionError "").
Proof.
  unfold mewtwo. intros H.
  apply In_Raise_dbind in H. destruct H as [H | [sqs [Hs H]]].
  { left. destruct H as [H | []]. exact H. }
  destruct Hs as [Hs | []].
  apply In_Raise_dbind in H. destruct H as [H | [rand [Hr H]]].
  { right. left. unfold randrange in H.
    destruct (Z.of_nat (List.length sqs) <=? 0) eqn:El.
    - destruct H as [H | []]. injection H as <-.
      apply Z.leb_le in El. destruct sqs; [auto | simpl in El; lia].
    - apply in_map_iff in H. destruct H as [x [Hx _]]. discriminate. }
  right. right. apply In_Ok_randrange in Hr.
  destruct (index_in_range sqs rand Hr) as [x [Hx Hin]].
  rewrite Hx in H.
  apply In_Raise_dbind in H. destruct H as [H | [res [Hres H]]].
  { destruct H as [H | []]. discriminate. }
  destruct Hres as [Hres | []]. injection Hres as <-.
  apply In_Raise_dbind in H. destruct H as [H | [u [_ H]]].
  2:{ destruct H as [H | []]. discriminate. }
  destruct H as [H | []]. unfold assert_ in H.
  destruct ((x * x) mod b =? 1 mod b) eqn:Ex; [discriminate|].
  injection H as <-. apply Z.eqb_neq in Ex.
  exists sqs, x. auto.
Qed.

(** X12.  On a constructed parameter set key generation never raises:
    every run of [generate_private_key], for either party, returns a
    key, and there is at least one run. *)
Theorem key_generation_never_raises lamb0 f0 p0 curve degA degB pr :
  ModuleLaws -> SqrtLaw ->
  MSIDH_Parameters_init lamb0 f0 p0 curve degA degB = Ok pr ->
  (MSIDH_Party_A.generate_private_key pr <> []
   /\ forall r, In r (MSIDH_Party_A.generate_private_key pr) ->
                exists sk, r = Ok sk)
  /\ (MSIDH_Party_B.generate_private_key pr <> []
      /\ forall r, In r (MSIDH_Party_B.generate_private_key pr) ->
                   exists sk, r = Ok sk).
Proof.
  intros ML SL H. destruct (init_wellformed ML _ _ _ _ _ _ _ H).
  assert (HA : 0 < A pr).
  { rewrite <- wf_order_PA0. apply (point_order_pos ML). }
  assert (HB : 0 < B pr).
  { rewrite <- wf_order_PB0. apply (point_order_pos ML). }
  assert (gen : forall m n, 0 < m -> 0 < n ->
            let d := (x <~ mewtwo m ;; y <~ randrange n ;; dret (x, y)) in
            d <> [] /\ forall r, In r d -> exists sk : Z * Z, r = Ok sk).
  { intros m n Hm Hn d.
    destruct (mewtwo_roots m SL Hm) as [l [Hl [_ Hin]]].
    unfold d. rewrite (keys_eq _ l n Hl Hn). split.
    - assert (Hone : In (1 mod m) l) by (apply Hin, root_exists; assumption).
      assert (Hzero : In 0 (range n)) by (apply In_range; lia).
      intros E.
      assert (Hp : In (1 mod m, 0) (list_prod l (range n)))
        by (apply in_prod; assumption).
      apply (in_map Ok) in Hp. rewrite E in Hp. destruct Hp.
    - intros r Hr. apply in_map_iff in Hr. destruct Hr as [sk [<- _]].
      eauto. }
  split.
  - apply (gen (B pr) (A pr)); assumption.
  - apply (gen (A pr) (B pr)); assumption.
Qed.

(** X13.  Whatever the toy generator returns is the parameter set of the
    cofactor it was called with: that cofactor passed the prime test,
    the modulus is [A * B * f - 1] for the fixed [A] and [B], the
    security parameter is 10, and validation answers [True] on it.  A
    later cofactor is never the one returned. *)
Theorem baby_returns_starting_cofactor (depth : nat) (f0 : Z)
  (pr : MSIDH_Parameters) :
  MSIDHpBaby_init depth f0 = Ok pr ->
  is_prime (baby_A * baby_B * f0 - 1) = true
  /\ f pr = f0 /\ p pr = baby_A * baby_B * f0 - 1
  /\ A pr = baby_A /\ B pr = baby_B /\ lamb pr = 10
  /\ verify_parameters pr = Ok true.
Proof.
  intros H.
  destruct (is_prime (baby_A * baby_B * f0 - 1)) eqn:Hp.
  2:{ destruct (baby_composite_raises depth f0 Hp) as [e He]. congruence. }
  split; [reflexivity|].
  destruct depth as [|d]; [discriminate|].
  cbn [MSIDHpBaby_init] in H. rewrite Hp in H. cbn [negb bind] in H.
  apply bind_Ok_inv in H. destruct H as [F [_ H]].
  apply bind_Ok_inv in H. destruct H as [E [_ H]].
  apply bind_Ok_inv in H. destruct H as [u [_ H]].
  apply init_Ok_inv in H. destruct H as [G1 [G2 [_ [-> Hv]]]].
  simpl. auto 10.
Qed.

End SamplingProperties.

(** ** The further properties on the small backends *)

Module ToyExtras.
Import Toy.

Lemma toy_xy_law : @XyLaw Toy.backend.
Proof.
  intros E P H. simpl in *. unfold t_point_eqb in H.
  apply andb_true_iff in H. destruct H as [H Hy].
  apply andb_true_iff in H. destruct H as [_ Hx].
  unfold t_xy, t_is_zero. simpl in Hx, Hy.
  rewrite Zmod_0_l in Hx, Hy. rewrite Hx, Hy. simpl. eauto.
Qed.

Lemma toy_weil_domain_law : @WeilDomainLaw Toy.backend.
Proof.
  intros P Q n v H. simpl in *.
  apply ToyFacts.weil_Ok_inv in H. destruct H as [Ec [HP [HQ _]]].
  split; [assumption|].
  split; apply ToyFacts.smul_zero_iff; assumption.
Qed.

Lemma early_checks_witness : verify_parameters pr_composite = Ok false.
Proof.
  apply (@early_checks_answer_false Toy.backend pr_composite).
  right. left. vm_compute. reflexivity.
Defined.

Lemma validation_raises_witness :
  math_sqrt (p pr_degree_one) = Raise (BackendError "ZeroDivisionError")
  \/ xy (PA pr_degree_one) = Raise (BackendError "ZeroDivisionError")
  \/ xy (QA pr_degree_one) = Raise (BackendError "ZeroDivisionError")
  \/ xy (PB pr_degree_one) = Raise (BackendError "ZeroDivisionError")
  \/ xy (QB pr_degree_one) = Raise (BackendError "ZeroDivisionError").
Proof.
  apply (@validation_raises_only_from Toy.backend pr_degree_one).
  vm_compute. reflexivity.
Defined.

Lemma triviality_check_witness : refused_by_first_eight pr_common_factor.
Proof.
  apply (@triviality_check_never_decides Toy.backend pr_common_factor
           toy_xy_law).
  vm_compute. reflexivity.
Defined.

Lemma generators_must_be_two_witness :
  @MSIDH_Parameters_init Cyclic.backend 10 8 9239 1 15 77 = Raise ValueError.
Proof.
  apply (@generators_must_be_two Cyclic.backend 10 8 9239 1 15 77).
  simpl. discriminate.
Defined.

Lemma constructed_bases_witness :
  (curve_of (PA Toy.pr) = E0 Toy.pr /\ curve_of (QA Toy.pr) = E0 Toy.pr
   /\ curve_of (PB Toy.pr) = E0 Toy.pr /\ curve_of (QB Toy.pr) = E0 Toy.pr)
  /\ (smul (A Toy.pr) (PA Toy.pr) = infinity (E0 Toy.pr)
      /\ smul (A Toy.pr) (QA Toy.pr) = infinity (E0 Toy.pr)
      /\ smul (B Toy.pr) (PB Toy.pr) = infinity (E0 Toy.pr)
      /\ smul (B Toy.pr) (QB Toy.pr) = infinity (E0 Toy.pr))
  /\ independent (E0 Toy.pr) (PA Toy.pr) (QA Toy.pr)
  /\ independent (E0 Toy.pr) (PB Toy.pr) (QB Toy.pr).
Proof.
  apply (@constructed_bases_structure Toy.backend 10 8 9239 1 15 77 Toy.pr
           ToyFacts.toy_module_laws).
  exact ToyRuns.params_constructed.
Defined.

Lemma kernel_generator_order_witness :
  point_order (padd (PA Toy.pr) (smul 7 (QA Toy.pr))) = A Toy.pr
  /\ point_order (padd (PB Toy.pr) (smul 5 (QB Toy.pr))) = B Toy.pr.
Proof.
  apply (@kernel_generator_order Toy.backend 10 8 9239 1 15 77 Toy.pr 7 5
           ToyFacts.toy_module_laws).
  exact ToyRuns.params_constructed.
Defined.

Lemma public_key_points_witness :
  (curve_of (t_smul 34 (t_eval {| idom := 1; ideg := 15 |} (PB Toy.pr))) = 15
   /\ curve_of (t_smul 34 (t_eval {| idom := 1; ideg := 15 |} (QB Toy.pr)))
      = 15)
  /\ smul (B Toy.pr) (t_smul 34 (t_eval {| idom := 1; ideg := 15 |} (PB Toy.pr)))
     = infinity 15
  /\ smul (B Toy.pr) (t_smul 34 (t_eval {| idom := 1; ideg := 15 |} (QB Toy.pr)))
     = infinity 15.
Proof.
  apply (proj1 (@public_key_points_torsion Toy.backend 10 8 9239 1 15 77
                  Toy.pr skA 15
                  (t_smul 34 (t_eval {| idom := 1; ideg := 15 |} (PB Toy.pr)))
                  (t_smul 34 (t_eval {| idom := 1; ideg := 15 |} (QB Toy.pr)))
                  ToyFacts.toy_module_laws ToyFacts.toy_isogeny_laws
                  ToyRuns.params_constructed)).
  vm_compute. reflexivity.
Defined.

Lemma secret_independent_witness :
  exists pk pk' j,
    MSIDH_Party_B.compute_public_key Toy.pr (4, 5) = Ok pk
    /\ MSIDH_Party_B.compute_public_key Toy.pr (11, 5) = Ok pk'
    /\ MSIDH_Party_A.compute_shared_secret Toy.pr (34, 7) pk = Ok j
    /\ MSIDH_Party_A.compute_shared_secret Toy.pr (43, 7) pk' = Ok j.
Proof.
  apply (@secret_independent_of_masks Toy.backend 10 8 9239 1 15 77 Toy.pr
           34 43 7 4 11 5
           ToyFacts.toy_module_laws ToyFacts.toy_pairing_laws
           ToyFacts.toy_isogeny_laws ToyRuns.params_constructed).
  - vm_compute. reflexivity.
  - vm_compute. reflexivity.
Defined.

Lemma accepted_key_witness :
  curve_of (t_smul 4 (t_eval {| idom := 1; ideg := 77 |} (PA Toy.pr)))
  = curve_of (t_smul 4 (t_eval {| idom := 1; ideg := 77 |} (QA Toy.pr)))
  /\ smul (A Toy.pr) (t_smul 4 (t_eval {| idom := 1; ideg := 77 |} (PA Toy.pr)))
     = infinity
         (curve_of (t_smul 4 (t_eval {| idom := 1; ideg := 77 |} (PA Toy.pr))))
  /\ smul (A Toy.pr) (t_smul 4 (t_eval {| idom := 1; ideg := 77 |} (QA Toy.pr)))
     = infinity
         (curve_of (t_smul 4 (t_eval {| idom := 1; ideg := 77 |} (QA Toy.pr)))).
Proof.
  apply (proj1 (@accepted_key_is_torsion Toy.backend Toy.pr skA 77
                  (t_smul 4 (t_eval {| idom := 1; ideg := 77 |} (PA Toy.pr)))
                  (t_smul 4 (t_eval {| idom := 1; ideg := 77 |} (QA Toy.pr)))
                  1155 toy_weil_domain_law)).
  vm_compute. reflexivity.
Defined.

Lemma mewtwo_failures_witness :
  sqrt_all 0 = Raise (BackendError "modulus must be positive")
  \/ (sqrt_all 0 = Ok []
      /\ BackendError "modulus must be positive" = ValueError)
  \/ (exists sqs x, sqrt_all 0 = Ok sqs /\ In x sqs
                    /\ (x * x) mod 0 <> 1 mod 0
                    /\ BackendError "modulus must be positive"
                       = AssertionError "").
Proof.
  apply (@mewtwo_failures Toy.backend 0).
  vm_compute. left. reflexivity.
Defined.

Lemma key_generation_witness :
  (MSIDH_Party_A.generate_private_key Toy.pr <> []
   /\ forall r, In r (MSIDH_Party_A.generate_private_key Toy.pr) ->
                exists sk, r = Ok sk)
  /\ (MSIDH_Party_B.generate_private_key Toy.pr <> []
      /\ forall r, In r (MSIDH_Party_B.generate_private_key Toy.pr) ->
                   exists sk, r = Ok sk).
Proof.
  apply (@key_generation_never_raises Toy.backend 10 8 9239 1 15 77 Toy.pr
           ToyFacts.toy_module_laws ToyFacts.toy_sqrt_law
           ToyRuns.params_constructed).
Defined.

(** The toy generator returns on the accepting backend. *)
Lemma accepting_baby_returns :
  @MSIDHpBaby_init Accepting.backend 1 6
  = Ok (@assembled Accepting.backend 10 6 (baby_A * baby_B * 6 - 1) tt
          baby_A baby_B 1 (-1)).
Proof.
  cbn [MSIDHpBaby_init].
  change (@is_prime Accepting.backend (baby_A * baby_B * 6 - 1)) with true.
  cbn [negb bind].
  change (@FiniteField Accepting.backend (baby_A * baby_B * 6 - 1) 2)
    with (@Ok unit tt).
  cbn [bind].
  change (@EllipticCurve Accepting.backend tt [1; 0]) with (@Ok unit tt).
  cbn [bind].
  change (@is_supersingular Accepting.backend tt) with true.
  cbn [assert_ bind].
  apply (@init_verified Accepting.backend); [reflexivity|].
  vm_compute. reflexivity.
Qed.

Lemma baby_returns_witness :
  @is_prime Accepting.backend (baby_A * baby_B * 6 - 1) = true
  /\ f (@assembled Accepting.backend 10 6 (baby_A * baby_B * 6 - 1) tt
          baby_A baby_B 1 (-1)) = 6
  /\ p (@assembled Accepting.backend 10 6 (baby_A * baby_B * 6 - 1) tt
          baby_A baby_B 1 (-1)) = baby_A * baby_B * 6 - 1
  /\ A (@assembled Accepting.backend 10 6 (baby_A * baby_B * 6 - 1) tt
          baby_A baby_B 1 (-1)) = baby_A
  /\ B (@assembled Accepting.backend 10 6 (baby_A * baby_B * 6 - 1) tt
          baby_A baby_B 1 (-1)) = baby_B
  /\ lamb (@assembled Accepting.backend 10 6 (baby_A * baby_B * 6 - 1) tt
             baby_A baby_B 1 (-1)) = 10
  /\ verify_parameters
       (@assembled Accepting.backend 10 6 (baby_A * baby_B * 6 - 1) tt
          baby_A baby_B 1 (-1)) = Ok true.
Proof.
  apply (@baby_returns_starting_cofactor Accepting.backend 1 6).
  exact accepting_baby_returns.
Defined.

End ToyExtras.

(** * Console output and large moduli *)

(** ** What key generation prints *)

Section Output.
Context {BK : Backend}.

Lemma map_repair {T : Type} (l : list (result T * list string)) :
  map (fun ro => (fst ro, [] ++ snd ro)) l = l.
Proof.
  rewrite <- (map_id l) at 2. apply map_ext. intros [r o]. reflexivity.
Qed.

Lemma iobind_silent {T U : Type} (v : T) (k : T -> DistIO U) :
  iobind [(Ok v, [])] k = k v.
Proof.
  unfold iobind. simpl. rewrite app_nil_r. apply map_repair.
Qed.

Lemma iobind_lift_Ok {T U : Type} (l : list T) (k : T -> DistIO U) :
  iobind (iolift (map Ok l)) k = flat_map k l.
Proof.
  unfold iobind, iolift. induction l as [|x l IH]; [reflexivity|].
  simpl. rewrite IH. f_equal. apply map_repair.
Qed.

Lemma iobind_tagged {T U : Type} (out : T -> list string) (l : list T)
  (k : T -> DistIO U) :
  iobind (map (fun x => (Ok x, out x)) l) k
  = flat_map (fun x => map (fun ro => (fst ro, out x ++ snd ro)) (k x)) l.
Proof.
  unfold iobind. induction l as [|x l IH]; [reflexivity|].
  simpl. rewrite IH. reflexivity.
Qed.

(** When the backend lists the roots, each run of [mewtwo] returns one
    entry of the list and has printed that entry. *)
Lemma mewtwo_io_eq b sqs :
  sqrt_all b = Ok sqs -> sqs <> [] ->
  (forall x, In x sqs -> (x * x) mod b = 1 mod b) ->
  mewtwo_io b = map (fun x => (Ok x, [("mewtwo: " ++ str x)%string])) sqs.
Proof.
  intros Hs Hne Hroot. unfold mewtwo_io. rewrite Hs.
  change (iolift (dlift (Ok sqs))) with [(@Ok (list Z) sqs, @nil string)].
  rewrite iobind_silent, randrange_pos.
  2:{ destruct sqs; [congruence | simpl; lia]. }
  rewrite iobind_lift_Ok.
  set (g := fun r : result Z =>
              res <<~ iolift (dlift r) ;;
              _ <<~ iolift (dlift (assert_ ((res * res) mod b =? 1 mod b) "")) ;;
              _ <<~ print ("mewtwo: " ++ str res) ;;
              ioret res).
  change (flat_map (fun rand => g (index sqs rand))
                   (range (Z.of_nat (List.length sqs)))
          = map (fun x => (Ok x, [("mewtwo: " ++ str x)%string])) sqs).
  rewrite (flat_map_concat_map (fun rand => g (index sqs rand))).
  rewrite <- (map_map (index sqs) g), map_index_range, map_map.
  rewrite <- flat_map_concat_map.
  rewrite <- (flat_map_singleton (fun x => (Ok x, [("mewtwo: " ++ str x)%string])) sqs).
  apply flat_map_ext_in. intros x Hx. unfold g.
  change (iolift (dlift (Ok x))) with [(@Ok Z x, @nil string)].
  rewrite iobind_silent.
  apply Hroot in Hx. apply Z.eqb_eq in Hx. rewrite Hx.
  reflexivity.
Qed.

Lemma keys_io_eq (d : DistIO Z) (l : list Z) (n : Z) :
  d = map (fun x => (Ok x, [("mewtwo: " ++ str x)%string])) l -> 0 < n ->
  (alpha <<~ d ;; a <<~ iolift (randrange n) ;; ioret (alpha, a))
  = map (fun sk => (Ok sk, [("mewtwo: " ++ str (fst sk))%string]))
        (list_prod l (range n)).
Proof.
  intros -> Hn. rewrite iobind_tagged.
  induction l as [|x l IH]; [reflexivity|].
  cbn [flat_map list_prod]. rewrite map_app, IH. f_equal.
  rewrite randrange_pos by assumption.
  rewrite iobind_lift_Ok. unfold ioret.
  rewrite flat_map_singleton, !map_map. reflexivity.
Qed.

(** C5, as the code has it.  For positive degrees, the runs of
    [generate_private_key] of role A are the pairs of a square root of 1
    modulo [B] and a scalar of [range(A)], one run per pair, and those
    of role B the pairs of a root modulo [A] and a scalar of
    [range(B)].  Each run prints one line, "mewtwo: " followed by the
    mask it returns, and nothing else. *)
Theorem generate_private_key_runs (pr : MSIDH_Parameters) :
  SqrtLaw -> 0 < A pr -> 0 < B pr ->
  (exists masks,
      NoDup masks
      /\ (forall x, In x masks <->
                    (0 <= x < B pr /\ (x * x) mod B pr = 1 mod B pr))
      /\ MSIDH_Party_A.generate_private_key_io pr
         = map (fun sk => (Ok sk, [("mewtwo: " ++ str (fst sk))%string]))
               (list_prod masks (range (A pr))))
  /\ (exists masks,
         NoDup masks
         /\ (forall x, In x masks <->
                       (0 <= x < A pr /\ (x * x) mod A pr = 1 mod A pr))
         /\ MSIDH_Party_B.generate_private_key_io pr
            = map (fun sk => (Ok sk, [("mewtwo: " ++ str (fst sk))%string]))
                  (list_prod masks (range (B pr)))).
Proof.
  intros SL HA HB.
  assert (io : forall m, 0 < m ->
            exists l, NoDup l
              /\ (forall x, In x l <-> (0 <= x < m /\ (x * x) mod m = 1 mod m))
              /\ mewtwo_io m = map (fun x => (Ok x, [("mewtwo: " ++ str x)%string])) l).
  { intros m Hm. destruct (SL m Hm) as [l [Hs [Hnd Hin]]].
    exists l. split; [assumption|]. split; [assumption|].
    apply mewtwo_io_eq; auto.
    - intros ->. apply (Hin (1 mod m)). apply root_exists. assumption.
    - intros x Hx. apply Hin in Hx. tauto. }
  split.
  - destruct (io (B pr) HB) as [l [Hnd [Hin Hm]]].
    exists l. split; [assumption|]. split; [assumption|].
    unfold MSIDH_Party_A.generate_private_key_io. apply keys_io_eq; assumption.
  - destruct (io (A pr) HA) as [l [Hnd [Hin Hm]]].
    exists l. split; [assumption|]. split; [assumption|].
    unfold MSIDH_Party_B.generate_private_key_io. apply keys_io_eq; assumption.
Qed.

Lemma erase_iobind {T U : Type} (d : DistIO T) (k : T -> DistIO U) :
  map fst (iobind d k) = dbind (map fst d) (fun v => map fst (k v)).
Proof.
  unfold iobind, dbind. induction d as [|[r o] d IH]; [reflexivity|].
  simpl. rewrite map_app, IH. f_equal.
  destruct r as [v|e]; [|reflexivity].
  rewrite map_map. apply map_ext. intros [r' o']. reflexivity.
Qed.

Lemma erase_iolift {T : Type} (d : Dist T) : map fst (iolift d) = d.
Proof.
  unfold iolift. rewrite map_map. apply map_id.
Qed.

(** Forgetting the printed lines gives back [mewtwo] and
    [generate_private_key]. *)
Lemma dbind_ext {T U : Type} (d : Dist T) (k k' : T -> Dist U) :
  (forall v, k v = k' v) -> dbind d k = dbind d k'.
Proof.
  intros H. unfold dbind. apply flat_map_ext. intros [v|e]; auto.
Qed.

Lemma mewtwo_io_erased b : map fst (mewtwo_io b) = mewtwo b.
Proof.
  unfold mewtwo_io, mewtwo.
  rewrite erase_iobind, erase_iolift. apply dbind_ext. intros sqs.
  rewrite erase_iobind, erase_iolift. apply dbind_ext. intros rand.
  rewrite erase_iobind, erase_iolift. apply dbind_ext. intros res.
  rewrite erase_iobind, erase_iolift. apply dbind_ext. intros _.
  reflexivity.
Qed.

Lemma generate_private_key_io_erased pr :
  map fst (MSIDH_Party_A.generate_private_key_io pr)
  = MSIDH_Party_A.generate_private_key pr
  /\ map fst (MSIDH_Party_B.generate_private_key_io pr)
     = MSIDH_Party_B.generate_private_key pr.
Proof.
  unfold MSIDH_Party_A.generate_private_key_io,
    MSIDH_Party_B.generate_private_key_io,
    MSIDH_Party_A.generate_private_key, MSIDH_Party_B.generate_private_key.
  split.
  - rewrite erase_iobind, mewtwo_io_erased. apply dbind_ext. intros x.
    rewrite erase_iobind, erase_iolift. apply dbind_ext. reflexivity.
  - rewrite erase_iobind, mewtwo_io_erased. apply dbind_ext. intros x.
    rewrite erase_iobind, erase_iolift. apply dbind_ext. reflexivity.
Qed.

End Output.

(** ** A modulus too large for a double *)

Section LargeModulus.
Import Doubles.
Variable BK : Backend.

Lemma sqrt_of_infinity : sqrt_double plus_infinity = Ok plus_infinity.
Proof. reflexivity. Qed.

Lemma infinity_scaled_down : mul plus_infinity lit_10e_4 = plus_infinity.
Proof. reflexivity. Qed.

Lemma infinity_not_below (d : double) :
  d <> plus_infinity -> SFleb plus_infinity d = false.
Proof.
  intros H. destruct d as [s | [|] | | s m e]; try reflexivity.
  exfalso. apply H. reflexivity.
Qed.

Lemma python_validation_overflows (pr : @MSIDH_Parameters (python_ints BK)) :
  @is_supersingular (python_ints BK) (E0 pr) = true ->
  @is_prime (python_ints BK) (p pr) = true ->
  p pr = A pr * B pr * f pr - 1 ->
  double_of_Z (p pr) = plus_infinity ->
  verify_parameters pr = Raise (BackendError "OverflowError").
Proof.
  intros H1 H2 H3 Hp. unfold verify_parameters.
  rewrite H1, H2. cbn [negb].
  apply Z.eqb_eq in H3. rewrite H3. cbn [negb].
  change (@math_sqrt (python_ints BK) (p pr)) with (python_math_sqrt (p pr)).
  unfold python_math_sqrt. rewrite Hp. reflexivity.
Qed.

Lemma sage_validation_answers_false (pr : @MSIDH_Parameters (sage_integers BK)) :
  @is_supersingular (sage_integers BK) (E0 pr) = true ->
  @is_prime (sage_integers BK) (p pr) = true ->
  p pr = A pr * B pr * f pr - 1 ->
  double_of_Z (p pr) = plus_infinity ->
  double_of_Z (A pr) <> plus_infinity \/ double_of_Z (B pr) <> plus_infinity ->
  verify_parameters pr = Ok false.
Proof.
  intros H1 H2 H3 Hp Hfin. unfold verify_parameters.
  rewrite H1, H2. cbn [negb].
  apply Z.eqb_eq in H3. rewrite H3. cbn [negb].
  change (@math_sqrt (sage_integers BK) (p pr))
    with (sqrt_double (double_of_Z (p pr))).
  rewrite Hp, sqrt_of_infinity. cbn [bind].
  change (@float_le_int (sage_integers BK)
            (@float_mul (sage_integers BK) plus_infinity
               (@float_10e_4 (sage_integers BK))) (A pr))
    with (SFleb (mul plus_infinity lit_10e_4) (double_of_Z (A pr))).
  change (@float_le_int (sage_integers BK)
            (@float_mul (sage_integers BK) plus_infinity
               (@float_10e_4 (sage_integers BK))) (B pr))
    with (SFleb (mul plus_infinity lit_10e_4) (double_of_Z (B pr))).
  rewrite infinity_scaled_down.
  destruct Hfin as [HA | HB].
  - rewrite (infinity_not_below _ HA). reflexivity.
  - rewrite (infinity_not_below _ HB).
    destruct (SFleb plus_infinity (double_of_Z (A pr))); [|reflexivity].
    destruct (@int_le_float (sage_integers BK) (A pr)
                (@float_mul (sage_integers BK) plus_infinity
                   (@float_10e4 (sage_integers BK)))); reflexivity.
Qed.

Lemma infinity_scaled_up : mul plus_infinity lit_10e4 = plus_infinity.
Proof. reflexivity. Qed.

Lemma sage_band_vacuous (pr : @MSIDH_Parameters (sage_integers BK)) :
  double_of_Z (p pr) = plus_infinity ->
  double_of_Z (A pr) = plus_infinity ->
  double_of_Z (B pr) = plus_infinity ->
  band_holds pr.
Proof.
  intros Hp HA HB. exists plus_infinity.
  change (@math_sqrt (sage_integers BK) (p pr))
    with (sqrt_double (double_of_Z (p pr))).
  rewrite Hp. split; [reflexivity|].
  change (@float_mul (sage_integers BK) plus_infinity
            (@float_10e_4 (sage_integers BK)))
    with (mul plus_infinity lit_10e_4).
  change (@float_mul (sage_integers BK) plus_infinity
            (@float_10e4 (sage_integers BK)))
    with (mul plus_infinity lit_10e4).
  rewrite infinity_scaled_down, infinity_scaled_up.
  change (SFleb plus_infinity (double_of_Z (A pr)) = true
          /\ SFleb (double_of_Z (A pr)) plus_infinity = true
          /\ SFleb plus_infinity (double_of_Z (B pr)) = true
          /\ SFleb (double_of_Z (B pr)) plus_infinity = true).
  rewrite HA, HB. repeat split.
Qed.

(** C10, as the code has it.  Take a parameter set that passes the
    first three checks and whose modulus converts to the double
    infinity.  If the modulus is a Python [int], [math.sqrt] raises
    [OverflowError] and so does validation.  If it is a Sage [Integer],
    as the presets compute, [math.sqrt] returns infinity: when [A] or
    [B] converts to a finite double, validation returns [False]; when
    both convert to infinity as well, the band check holds.  For a
    Python [int], and for a Sage [Integer] with a finite [A] or [B],
    construction returns no object. *)
Theorem huge_modulus_never_validated :
  (forall pr : @MSIDH_Parameters (python_ints BK),
      @is_supersingular (python_ints BK) (E0 pr) = true ->
      @is_prime (python_ints BK) (p pr) = true ->
      p pr = A pr * B pr * f pr - 1 ->
      double_of_Z (p pr) = plus_infinity ->
      verify_parameters pr = Raise (BackendError "OverflowError"))
  /\ (forall pr : @MSIDH_Parameters (sage_integers BK),
         @is_supersingular (sage_integers BK) (E0 pr) = true ->
         @is_prime (sage_integers BK) (p pr) = true ->
         p pr = A pr * B pr * f pr - 1 ->
         double_of_Z (p pr) = plus_infinity ->
         double_of_Z (A pr) <> plus_infinity
         \/ double_of_Z (B pr) <> plus_infinity ->
         verify_parameters pr = Ok false)
  /\ (forall pr : @MSIDH_Parameters (sage_integers BK),
         double_of_Z (p pr) = plus_infinity ->
         double_of_Z (A pr) = plus_infinity ->
         double_of_Z (B pr) = plus_infinity ->
         band_holds pr)
  /\ (forall lamb0 f0 p0 (curve : @Curve BK) degA degB,
         @is_supersingular BK curve = true ->
         @is_prime BK p0 = true ->
         p0 = degA * degB * f0 - 1 ->
         double_of_Z p0 = plus_infinity ->
         (forall pr,
             @MSIDH_Parameters_init (python_ints BK) lamb0 f0 p0 curve degA degB
             <> Ok pr)
         /\ (double_of_Z degA <> plus_infinity
             \/ double_of_Z degB <> plus_infinity ->
             forall pr,
               @MSIDH_Parameters_init (sage_integers BK)
                 lamb0 f0 p0 curve degA degB
               <> Ok pr)).
Proof.
  split; [exact python_validation_overflows|].
  split; [exact sage_validation_answers_false|].
  split; [exact sage_band_vacuous|].
  intros lamb0 f0 p0 curve degA degB H1 H2 H3 Hp. split.
  - intros pr H. apply init_Ok_inv in H.
    destruct H as [G1 [G2 [_ [-> Hv]]]].
    rewrite python_validation_overflows in Hv; auto. discriminate.
  - intros Hfin pr H. apply init_Ok_inv in H.
    destruct H as [G1 [G2 [_ [-> Hv]]]].
    rewrite sage_validation_answers_false in Hv; auto. discriminate.
Qed.

End LargeModulus.

Module HugeRuns.
Import Doubles.

(** C10, refuted as worded.  The modulus [2^1279 - 1] is too large for
    a double and the parameter set passes the first three checks, yet
    validation, on the Sage integers the presets compute with, does not
    raise: it returns [False]. *)
Lemma huge_sage_modulus_is_answered :
  double_of_Z (p pr_huge) = plus_infinity
  /\ @is_supersingular (sage_integers Accepting.backend) (E0 pr_huge) = true
  /\ @is_prime (sage_integers Accepting.backend) (p pr_huge) = true
  /\ p pr_huge = A pr_huge * B pr_huge * f pr_huge - 1
  /\ verify_parameters pr_huge = Ok false.
Proof.
  split; [vm_compute; reflexivity|].
  split; [reflexivity|]. split; [reflexivity|].
  split; vm_compute; reflexivity.
Qed.

Lemma huge_modulus_witness :
  verify_parameters pr_huge_python = Raise (BackendError "OverflowError")
  /\ (forall pr,
         @MSIDH_Parameters_init (sage_integers Accepting.backend)
           256 1 (2 ^ 1279 - 1) tt (2 ^ 639) (2 ^ 640) <> Ok pr).
Proof.
  split.
  - apply (proj1 (huge_modulus_never_validated Accepting.backend) pr_huge_python).
    + reflexivity.
    + reflexivity.
    + vm_compute. reflexivity.
    + vm_compute. reflexivity.
  - apply (proj2 (proj2 (proj2 (huge_modulus_never_validated Accepting.backend)))
             256 1 (2 ^ 1279 - 1) tt (2 ^ 639) (2 ^ 640)).
    + reflexivity.
    + reflexivity.
    + vm_compute. reflexivity.
    + vm_compute. reflexivity.
    + left. vm_compute. discriminate.
Defined.

(** The threshold of the conversion. *)
Lemma conversion_threshold :
  double_of_Z (2 ^ 1024 - 2 ^ 970) = plus_infinity
  /\ double_of_Z (2 ^ 1024 - 2 ^ 970 - 1)
     = S754_finite false 9007199254740991 971.
Proof. split; vm_compute; reflexivity. Qed.

End HugeRuns.

Module OutputRuns.
Import Toy.

(** C5, refuted as worded.  On the toy parameter set, the run of
    [generate_private_key] that returns the key (34, 7) has printed the
    line "mewtwo: 34": key generation writes the secret mask to the
    console, a side effect besides the consumption of randomness. *)
Lemma key_generation_prints_the_mask :
  In (Ok skA, ["mewtwo: 34"%string])
     (MSIDH_Party_A.generate_private_key_io Toy.pr)
  /\ ~ (forall run,
           In run (MSIDH_Party_A.generate_private_key_io Toy.pr) ->
           snd run = []).
Proof.
  assert (H : In (Ok skA, ["mewtwo: 34"%string])
                 (MSIDH_Party_A.generate_private_key_io Toy.pr)).
  { vm_compute. repeat (first [left; reflexivity | right]). }
  split; [exact H|].
  intros Hall. apply Hall in H. discriminate.
Qed.

Lemma generate_private_key_runs_witness :
  (exists masks,
      NoDup masks
      /\ (forall x, In x masks <-> (0 <= x < 77 /\ (x * x) mod 77 = 1 mod 77))
      /\ MSIDH_Party_A.generate_private_key_io Toy.pr
         = map (fun sk => (Ok sk, [("mewtwo: " ++ str (fst sk))%string]))
               (list_prod masks (range 15)))
  /\ (exists masks,
         NoDup masks
         /\ (forall x, In x masks <->
                       (0 <= x < 15 /\ (x * x) mod 15 = 1 mod 15))
         /\ MSIDH_Party_B.generate_private_key_io Toy.pr
            = map (fun sk => (Ok sk, [("mewtwo: " ++ str (fst sk))%string]))
                  (list_prod masks (range 77))).
Proof.
  apply (@generate_private_key_runs Toy.backend Toy.pr
           ToyFacts.toy_sqrt_law); reflexivity.
Defined.

End OutputRuns.
